(** * MiddlePanel: the search panel of the Next.js front end

    A shallow embedding of [components/MiddlePanel.tsx] (the file kept as
    [app/api/helloNextJs/route.ts]): the hook state of the component as a
    record, every handler and promise callback as a
    function on that record, the outbound requests as an explicit list of
    requests in flight, and the user and network events as a partial step
    function. *)

From Stdlib Require Import Ascii String QArith.
From stdpp Require Import base decidable option list strings pretty.

Local Close Scope Q_scope.
Local Open Scope string_scope.

(** ** JavaScript values

    [generateEmbedUrl] is declared on [string | undefined], but its guard
    tests [typeof url], so the values it can meet at run time are modelled:
    the item comes from parsed JSON. *)
Module Js.

Inductive value : Type :=
  | Undefined
  | Null
  | Bool (b : bool)
  | Number (n : Z)      (* the integral numbers are enough here *)
  | NaN
  | Str (s : string)
  | Object.             (* an opaque object without own methods *)

(** A call either returns or throws. *)
Inductive completion (A : Type) : Type :=
  | Return (a : A)
  | Throw (message : string).
Arguments Return {A} a.
Arguments Throw {A} message.

(** [ToBoolean]: what [!x] and [x && y] look at. *)
Definition truthy (v : value) : bool :=
  match v with
  | Undefined | Null | NaN => false
  | Bool b => b
  | Number n => negb (n =? 0)%Z
  | Str s => negb (String.eqb s "")
  | Object => true
  end.

(** [typeof v === "string"]. *)
Definition is_string (v : value) : bool :=
  match v with Str _ => true | _ => false end.

(** [v ?? d]. *)
Definition nullish_or (v d : value) : value :=
  match v with Undefined | Null => d | _ => v end.

End Js.

(** ** The talk-page pattern

    [/https:\/\/www\.ted\.com\/talks\/([\w_]+)/], without flags: the
    literal prefix followed by one or more of [A-Za-z0-9_], found at the
    leftmost position of the subject where it occurs. *)
Module Regex.

Definition ted_prefix : string := "https://www.ted.com/talks/".

(** The class [[\w_]]. *)
Definition word_char (c : ascii) : bool :=
  let n := nat_of_ascii c in
  (((48 <=? n) && (n <=? 57)) || ((65 <=? n) && (n <=? 90))
   || ((97 <=? n) && (n <=? 122)) || (n =? 95))%nat.

(** A string of word characters only. *)
Fixpoint all_word (s : string) : bool :=
  match s with
  | EmptyString => true
  | String c s' => word_char c && all_word s'
  end.

(** The greedy [[\w_]*]: the longest run of word characters in front. *)
Fixpoint take_word (s : string) : string :=
  match s with
  | EmptyString => EmptyString
  | String c s' => if word_char c then String c (take_word s') else EmptyString
  end.

Fixpoint strip_prefix (p s : string) : option string :=
  match p, s with
  | EmptyString, _ => Some s
  | String a p', String b s' =>
      if Ascii.eqb a b then strip_prefix p' s' else None
  | String _ _, EmptyString => None
  end.

(** An attempt to match at the start of [s]; the result is group 1. *)
Definition match_here (s : string) : option string :=
  match strip_prefix ted_prefix s with
  | Some rest =>
      match take_word rest with
      | EmptyString => None
      | name => Some name
      end
  | None => None
  end.

(** [s.match(tedRegex)]: the first position that matches wins; [None] is
    JavaScript's [null]. *)
Fixpoint exec (s : string) : option string :=
  match match_here s with
  | Some name => Some name
  | None =>
      match s with
      | EmptyString => None
      | String _ s' => exec s'
      end
  end.

End Regex.

(** ** [generateEmbedUrl] *)

(** [url.match(re)] on an arbitrary value: only strings have the method. *)
Definition method_match (url : Js.value) : Js.completion (option string) :=
  match url with
  | Js.Str s => Js.Return (Regex.exec s)
  | Js.Undefined | Js.Null =>
      Js.Throw "TypeError: Cannot read properties of undefined (reading 'match')"
  | _ => Js.Throw "TypeError: url.match is not a function"
  end.

Definition generateEmbedUrl (url : Js.value) : Js.completion Js.value :=
  if negb (Js.truthy url) || negb (Js.is_string url) then
    Js.Return (Js.nullish_or url (Js.Str ""))
  else
    match method_match url with
    | Js.Throw e => Js.Throw e
    | Js.Return (Some name) =>
        Js.Return (Js.Str ("https://embed.ted.com/talks/" ++ name ++ "?subtitle=en"))
    | Js.Return None => Js.Return url
    end.

(** ** [encodeURIComponent]

    A JavaScript string is modelled by its bytes in UTF-8, where an
    unpaired surrogate is the three-byte sequence [ED A0..BF 80..BF] that
    well-formed UTF-8 excludes. [encodeURIComponent] throws [URIError] on
    a string with an unpaired surrogate; on any other string every byte
    outside the unreserved set becomes [%XX]. *)
Definition unreserved (c : ascii) : bool :=
  let n := nat_of_ascii c in
  (((48 <=? n) && (n <=? 57)) || ((65 <=? n) && (n <=? 90))
   || ((97 <=? n) && (n <=? 122))
   || existsb (Nat.eqb n) [45; 95; 46; 33; 126; 42; 39; 40; 41])%nat.

Definition hex_digit (n : nat) : ascii :=
  nth n (list_ascii_of_string "0123456789ABCDEF") "0"%char.

(** The escaping of the bytes. *)
Fixpoint percentEncode (s : string) : string :=
  match s with
  | EmptyString => EmptyString
  | String c s' =>
      if unreserved c then String c (percentEncode s')
      else
        let n := nat_of_ascii c in
        String "%" (String (hex_digit (n / 16)) (String (hex_digit (n mod 16))
          (percentEncode s')))
  end.

Definition between (lo hi n : nat) : bool := ((lo <=? n) && (n <=? hi))%nat.

(** Well-formed UTF-8: [need] bytes of the current character are still to
    come, the next of them between [lo] and [hi]. *)
Fixpoint utf8_from (need lo hi : nat) (s : string) : bool :=
  match s with
  | EmptyString => (need =? 0)%nat
  | String c s' =>
      let b := nat_of_ascii c in
      match need with
      | O =>
          if between 0 127 b then utf8_from 0 0 0 s'
          else if between 194 223 b then utf8_from 1 128 191 s'
          else if (b =? 224)%nat then utf8_from 2 160 191 s'
          else if between 225 236 b || between 238 239 b
               then utf8_from 2 128 191 s'
          else if (b =? 237)%nat then utf8_from 2 128 159 s'   (* no surrogate *)
          else if (b =? 240)%nat then utf8_from 3 144 191 s'
          else if between 241 243 b then utf8_from 3 128 191 s'
          else if (b =? 244)%nat then utf8_from 3 128 143 s'
          else false
      | S need' =>
          if between lo hi b then utf8_from need' 128 191 s' else false
      end
  end.

(** The string has no unpaired surrogate. *)
Definition well_formed (s : string) : bool := utf8_from 0 0 0 s.

Definition encodeURIComponent (s : string) : Js.completion string :=
  if well_formed s then Js.Return (percentEncode s)
  else Js.Throw "URIError: URI malformed".

(** ** [Array.prototype.sort] under [() => Math.random() - 0.5]

    The comparator ignores its arguments, so all a sort sees is the sign of
    one more random number per comparison. The engine's algorithm is its
    own choice; the insertion sort engines use on short arrays is modelled:
    each element moves left past its neighbour while the comparator is
    positive. *)
Module RandomSort.

(** [rnd k] is the value of the [k]-th call of [Math.random()] made by
    the callback that is running. *)
Definition Random : Type := nat -> Q.

Definition comparefn (rnd : Random) (k : nat) : comparison :=
  (rnd k - (1 # 2) ?= 0)%Q.

Section Sort.
Context {A : Type} (rnd : Random).

(** The sorted prefix is kept reversed: its head is [a[i-1]]. The
    result is the new prefix and the number of random calls made. *)
Fixpoint insert_back (element : A) (prefix_rev : list A) (k : nat)
  : list A * nat :=
  match prefix_rev with
  | [] => ([element], k)
  | tmp :: rest =>
      match comparefn rnd k with
      | Gt =>
          let '(r, k') := insert_back element rest (S k) in (tmp :: r, k')
      | _ => (element :: tmp :: rest, S k)
      end
  end.

Fixpoint sort_from (prefix_rev todo : list A) (k : nat) : list A * nat :=
  match todo with
  | [] => (rev prefix_rev, k)
  | element :: todo' =>
      let '(p, k') := insert_back element prefix_rev k in
      sort_from p todo' k'
  end.

Definition sort (a : list A) : list A := fst (sort_from [] a 0).
End Sort.

End RandomSort.

(** ** Data *)

Record Talk : Type := mkTalk {
  title : string;
  url : string;
  sdg_tags : list string
}.

(** What [axios.get] hands to [then]. *)
Record AxiosResponse (D : Type) : Type := mkResponse {
  status : nat;
  statusText : string;
  data : D
}.
Arguments mkResponse {D} _ _ _.
Arguments status {D} _.
Arguments statusText {D} _.
Arguments data {D} _.

(** How the promise of a request settles; [Rejected] carries
    [err.message]. *)
Inductive Settled (D : Type) : Type :=
  | Fulfilled (response : AxiosResponse D)
  | Rejected (message : string).
Arguments Fulfilled {D} response.
Arguments Rejected {D} message.

(** The body of the greeting endpoint, [{ message: string }]: the body may
    be missing or falsy ([None]) and so may the field. *)
Record HelloBody : Type := mkHello { message : option string }.

(** The hook state of one mounted [MiddlePanel]. *)
Record State : Type := mkState {
  talks : list Talk;             (* useTalkContext() *)
  initialKeyword : string;       (* useRef, [.current] *)
  query : string;
  error : option string;
  loading : bool;
  selectedTalk : option Talk;
  logs : list string;
  errorDetails : string;
  greeting : string
}.

Definition setTalks (v : list Talk) (st : State) : State :=
  mkState v (initialKeyword st) (query st) (error st) (loading st)
    (selectedTalk st) (logs st) (errorDetails st) (greeting st).
Definition setInitialKeyword (v : string) (st : State) : State :=
  mkState (talks st) v (query st) (error st) (loading st)
    (selectedTalk st) (logs st) (errorDetails st) (greeting st).
Definition setQuery (v : string) (st : State) : State :=
  mkState (talks st) (initialKeyword st) v (error st) (loading st)
    (selectedTalk st) (logs st) (errorDetails st) (greeting st).
Definition setError (v : option string) (st : State) : State :=
  mkState (talks st) (initialKeyword st) (query st) v (loading st)
    (selectedTalk st) (logs st) (errorDetails st) (greeting st).
Definition setLoading (v : bool) (st : State) : State :=
  mkState (talks st) (initialKeyword st) (query st) (error st) v
    (selectedTalk st) (logs st) (errorDetails st) (greeting st).
Definition setSelectedTalk (v : option Talk) (st : State) : State :=
  mkState (talks st) (initialKeyword st) (query st) (error st) (loading st)
    v (logs st) (errorDetails st) (greeting st).
Definition setErrorDetails (v : string) (st : State) : State :=
  mkState (talks st) (initialKeyword st) (query st) (error st) (loading st)
    (selectedTalk st) (logs st) v (greeting st).
Definition setGreeting (v : string) (st : State) : State :=
  mkState (talks st) (initialKeyword st) (query st) (error st) (loading st)
    (selectedTalk st) (logs st) (errorDetails st) v.

(** [setLogs((prevLogs) => [...prevLogs, message])]. *)
Definition addLog (entry : string) (st : State) : State :=
  mkState (talks st) (initialKeyword st) (query st) (error st) (loading st)
    (selectedTalk st) (logs st ++ [entry]) (errorDetails st) (greeting st).

(** A request that was sent and has not settled, by the handlers that
    wait for it. *)
Inductive Request : Type :=
  | GetHello (address : string)
  | GetSearch (address : string).

(** The component and the requests it has in flight. *)
Record World : Type := mkWorld {
  ui : State;
  inflight : list Request
}.

(** ** The initial keyword *)

Definition topics : list string :=
  ["poverty"; "hunger"; "health"; "education"; "gender"; "water"; "energy";
   "work"; "industry"; "inequality"; "city"; "consumption"; "climate";
   "ocean"; "land"; "peace"; "partnership"].

(** [randomNumber] is [Math.floor(Math.random() * 18)]; an index outside
    the array reads [undefined], here [None]. *)
Definition determineInitialKeyword (randomNumber : nat) : option string :=
  match randomNumber with
  | O => Some "TED AI"
  | S i => topics !! i
  end.

(** ** The handlers of [MiddlePanel] *)

Definition hello_address : string := "http://127.0.0.1:8000/api/py/hello".

(** The address of the search for a query that can be encoded. *)
Definition search_address (searchQuery : string) : string :=
  "http://localhost:8000/api/py/search?query=" ++ percentEncode searchQuery.

Definition nonempty (s : string) : bool := negb (String.eqb s "").

(** The greeting effect: the request goes out, the handlers wait. *)
Definition greetingEffect (w : World) : World :=
  mkWorld (ui w) (inflight w ++ [GetHello hello_address]).

(** [greetingResponse.data && greetingResponse.data.message]. *)
Definition greetingThen (greetingResponse : AxiosResponse (option HelloBody))
    (st : State) : State :=
  match data greetingResponse with
  | Some body =>
      match message body with
      | Some m =>
          if nonempty m then setGreeting m st
          else setGreeting "Unknown response format" st
      | None => setGreeting "Unknown response format" st
      end
  | None => setGreeting "Unknown response format" st
  end.

Definition greetingCatch (err_message : string) (st : State) : State :=
  addLog ("Failed to fetch greeting: " ++ err_message)
    (setErrorDetails err_message (setGreeting "Failed to load greeting." st)).

Definition settleGreeting (outcome : Settled (option HelloBody)) (st : State)
    : State :=
  match outcome with
  | Fulfilled r => greetingThen r st
  | Rejected m => greetingCatch m st
  end.

(** The synchronous part of [performSearch]: [setLoading(true)],
    [setError(null)], then the address is built and the request sent. When
    [encodeURIComponent] throws, the [URIError] leaves [performSearch] (and
    the event handler that called it) before [axios.get] is reached: no
    request goes out and no [then], [catch] or [finally] is attached. *)
Definition performSearch (searchQuery : string) (w : World) : World :=
  mkWorld (setError None (setLoading true (ui w)))
          match encodeURIComponent searchQuery with
          | Js.Return encoded =>
              inflight w
              ++ [GetSearch ("http://localhost:8000/api/py/search?query="
                             ++ encoded)]
          | Js.Throw _ => inflight w
          end.

(** The [then] callback; the second component is the message of the
    [Error] it throws, if it throws. *)
Definition searchThen (searchResponse : AxiosResponse (list Talk))
    (rnd : RandomSort.Random) (st : State) : State * option string :=
  if negb (status searchResponse =? 200)%nat then
    (addLog ("Search failed. Status: " ++ pretty (status searchResponse)
             ++ " - " ++ statusText searchResponse) st,
     Some ("Error: " ++ pretty (status searchResponse)
           ++ " - " ++ statusText searchResponse))
  else
    let sorted := RandomSort.sort rnd (data searchResponse) in
    let st1 :=
      addLog ("Search results retrieved: " ++ pretty (length sorted)
              ++ " talks found.") (setTalks sorted st) in
    match sorted with
    | first :: _ =>                   (* data.length > 0, data[0] *)
        (addLog ("For example: " ++ title first)
           (setSelectedTalk (Some first) st1), None)
    | [] => (setSelectedTalk None st1, None)
    end.

Definition searchCatch (err_message : string) (st : State) : State :=
  addLog ("Failed to fetch data: " ++ err_message)
    (setErrorDetails err_message
       (setError
          (Some "Failed to fetch data. Please check if the backend server is running.")
          st)).

Definition searchFinally (st : State) : State := setLoading false st.

(** [.then(..).catch(..).finally(..)] once the request has settled. *)
Definition settleSearch (outcome : Settled (list Talk))
    (rnd : RandomSort.Random) (st : State) : State :=
  searchFinally
    match outcome with
    | Fulfilled r =>
        match searchThen r rnd st with
        | (st1, Some thrown) => searchCatch thrown st1
        | (st1, None) => st1
        end
    | Rejected m => searchCatch m st
    end.

(** The initial-keyword effect. No draw of [Math.floor(Math.random() * 18)]
    is outside [0..17], so an [undefined] keyword is no behaviour ([None]). *)
Definition initialKeywordEffect (randomNumber : nat) (w : World)
    : option World :=
  if String.eqb (initialKeyword (ui w)) "" then
    match determineInitialKeyword randomNumber with
    | Some keyword =>
        Some (performSearch keyword
                (mkWorld (setQuery keyword (setInitialKeyword keyword (ui w)))
                         (inflight w)))
    | None => None
    end
  else Some w.

Definition handleInputChange (value : string) (w : World) : World :=
  mkWorld (setQuery value (ui w)) (inflight w).

Definition manualSearch (w : World) : World :=
  performSearch (query (ui w))
    (mkWorld (addLog ("Manual search initiated with keyword: " ++ query (ui w))
                (ui w))
             (inflight w)).

Definition handleKeyPress (key : string) (w : World) : World :=
  if String.eqb key "Enter" then manualSearch w else w.

(** The log entry of [openTranscriptInNewTab]; the tab it opens is outside
    the component. *)
Definition openTranscriptInNewTab (st : State) : State :=
  match selectedTalk st with
  | Some t =>
      addLog ("Opened transcript in a new tab: " ++ url t
              ++ "/transcript?subtitle=en") st
  | None => st
  end.

(** The [onClick] of the result rendered at [index]. *)
Definition clickResult (index : nat) (st : State) : option State :=
  match talks st !! index with
  | Some talk => Some (setSelectedTalk (Some talk) st)
  | None => None
  end.

(** ** Events *)

Inductive Event : Type :=
  | RunEffects (randomNumber : nat)   (* mount, and StrictMode's second run *)
  | Rerender                          (* both effects have [[]] as deps *)
  | InputChange (value : string)
  | KeyDown (key : string)
  | ClickSearch
  | ClickTranscript
  | ClickResult (index : nat)
  | SearchSettles (i : nat) (outcome : Settled (list Talk))
      (rnd : RandomSort.Random)
  | GreetingSettles (i : nat) (outcome : Settled (option HelloBody)).

(** One event; [None] when the page offers no such event in [w]. *)
Definition step (e : Event) (w : World) : option World :=
  match e with
  | RunEffects randomNumber => initialKeywordEffect randomNumber (greetingEffect w)
  | Rerender => Some w
  | InputChange value => Some (handleInputChange value w)
  | KeyDown key => Some (handleKeyPress key w)
  | ClickSearch =>
      if loading (ui w) then None            (* disabled={loading} *)
      else Some (manualSearch w)
  | ClickTranscript =>
      match selectedTalk (ui w) with
      | Some _ => Some (mkWorld (openTranscriptInNewTab (ui w)) (inflight w))
      | None => None
      end
  | ClickResult index =>
      match clickResult index (ui w) with
      | Some st => Some (mkWorld st (inflight w))
      | None => None
      end
  | SearchSettles i outcome rnd =>
      match inflight w !! i with
      | Some (GetSearch _) =>
          Some (mkWorld (settleSearch outcome rnd (ui w)) (delete i (inflight w)))
      | _ => None
      end
  | GreetingSettles i outcome =>
      match inflight w !! i with
      | Some (GetHello _) =>
          Some (mkWorld (settleGreeting outcome (ui w)) (delete i (inflight w)))
      | _ => None
      end
  end.

Fixpoint run (es : list Event) (w : World) : option World :=
  match es with
  | [] => Some w
  | e :: es' =>
      match step e w with
      | Some w' => run es' w'
      | None => None
      end
  end.

(** The component as React creates it; the talks are whatever the
    [TalkContext] provider holds. *)
Definition mount (contextTalks : list Talk) : World :=
  mkWorld (mkState contextTalks "" "" None false None [] "" "") [].

Definition demoTalk : Talk :=
  mkTalk "A talk" "https://www.ted.com/talks/a_talk" ["sdg1"].

(** The [src] of the player frame, rendered when a talk is selected. *)
Definition frameSrc (st : State) : option (Js.completion Js.value) :=
  match selectedTalk st with
  | Some t => Some (generateEmbedUrl (Js.Str (url t)))
  | None => None
  end.

(** ** The tag line of a result

    [sdgTitleMap], in the order of the source. *)
Definition sdgTitleMap : list (string * string) :=
  [("sdg1", "SDG 1: No Poverty");
   ("sdg2", "SDG 2: Zero Hunger");
   ("sdg3", "SDG 3: Good Health and Well-Being");
   ("sdg4", "SDG 4: Quality Education");
   ("sdg5", "SDG 5: Gender Equality");
   ("sdg6", "SDG 6: Clean Water and Sanitation");
   ("sdg7", "SDG 7: Affordable and Clean Energy");
   ("sdg8", "SDG 8: Decent Work and Economic Growth");
   ("sdg9", "SDG 9: Industry, Innovation, and Infrastructure");
   ("sdg10", "SDG 10: Reduced Inequalities");
   ("sdg11", "SDG 11: Sustainable Cities and Communities");
   ("sdg12", "SDG 12: Responsible Consumption and Production");
   ("sdg13", "SDG 13: Climate Action");
   ("sdg14", "SDG 14: Life Below Water");
   ("sdg15", "SDG 15: Life on Land");
   ("sdg16", "SDG 16: Peace, Justice, and Strong Institutions");
   ("sdg17", "SDG 17: Partnerships for the Goals")].

(** The names every object literal inherits from [Object.prototype]. *)
Definition inherited_names : list string :=
  ["constructor"; "hasOwnProperty"; "isPrototypeOf"; "propertyIsEnumerable";
   "toLocaleString"; "toString"; "valueOf"; "__proto__";
   "__defineGetter__"; "__defineSetter__"; "__lookupGetter__";
   "__lookupSetter__"].

(** What [sdgTitleMap[tag]] reads. *)
Inductive Property : Type :=
  | Own (value : string)
  | Inherited                   (* a function or object of the prototype *)
  | Absent.                     (* [undefined] *)

Fixpoint own_property (table : list (string * string)) (key : string)
    : option string :=
  match table with
  | [] => None
  | (k, v) :: table' => if String.eqb k key then Some v else own_property table' key
  end.

Definition sdgTitleMap_get (tag : string) : Property :=
  match own_property sdgTitleMap tag with
  | Some v => Own v
  | None => if bool_decide (tag ∈ inherited_names) then Inherited else Absent
  end.

(** How [join] prints an element: [undefined] as the empty string; the
    text of an inherited member is the engine's and is not modelled
    ([None]). *)
Definition element_text (p : Property) : option string :=
  match p with
  | Own v => Some v
  | Absent => Some ""
  | Inherited => None
  end.

(** [Array.prototype.join]. *)
Fixpoint join (separator : string) (elements : list string) : string :=
  match elements with
  | [] => ""
  | [x] => x
  | x :: rest => x ++ separator ++ join separator rest
  end.

(** The text under the title of a result:
    [sdg_tags.length > 0 ? sdg_tags.map(tag => sdgTitleMap[tag]).join(', ') : '']. *)
Definition tagLine (talk : Talk) : option string :=
  match sdg_tags talk with
  | [] => Some ""
  | tags =>
      match mapM (fun tag => element_text (sdgTitleMap_get tag)) tags with
      | Some texts => Some (join ", " texts)
      | None => None
      end
  end.

(** * Vocabulary of the properties *)

(** [s] contains a talk-page address: the prefix followed by a name of
    one or more word characters. *)
Definition matches_talk_page (s : string) : Prop :=
  exists pre name rest,
    s = pre ++ Regex.ted_prefix ++ name ++ rest
    /\ name <> "" /\ Regex.all_word name = true.

(** The reading of C5 as it is written: a missing or non-string input
    gives the empty string. *)
Definition degrades_to_empty (v : Js.value) : Prop :=
  v = Js.Undefined \/ v = Js.Null \/ Js.is_string v = false ->
  generateEmbedUrl v = Js.Return (Js.Str "").

Definition retrieved_entry (n : nat) : string :=
  "Search results retrieved: " ++ pretty n ++ " talks found.".

Definition example_entry (first : Talk) : string :=
  "For example: " ++ title first.

(** C1 as it is written: one log entry is appended. *)
Definition success_appends_one_entry (r : AxiosResponse (list Talk))
    (rnd : RandomSort.Random) (st : State) : Prop :=
  status r = 200 ->
  let st' := settleSearch (Fulfilled r) rnd st in
  talks st' ≡ₚ data r
  /\ length (talks st') = length (data r)
  /\ selectedTalk st' = head (talks st')
  /\ exists entry, logs st' = (logs st ++ [entry])%list.

Definition failure_text : string :=
  "Failed to fetch data. Please check if the backend server is running.".

Definition search_failed (outcome : Settled (list Talk)) : Prop :=
  match outcome with
  | Fulfilled r => status r <> 200
  | Rejected _ => True
  end.

(** The text of the error that reaches [catch]. *)
Definition underlying_error (outcome : Settled (list Talk)) : string :=
  match outcome with
  | Fulfilled r => "Error: " ++ pretty (status r) ++ " - " ++ statusText r
  | Rejected m => m
  end.

Definition status_entry (r : AxiosResponse (list Talk)) : string :=
  "Search failed. Status: " ++ pretty (status r) ++ " - " ++ statusText r.

Definition failed_entry (err_message : string) : string :=
  "Failed to fetch data: " ++ err_message.

(** C2 as it is written: one log entry is appended. *)
Definition failure_appends_one_entry (outcome : Settled (list Talk))
    (rnd : RandomSort.Random) (st : State) : Prop :=
  search_failed outcome ->
  let st' := settleSearch outcome rnd st in
  error st' = Some failure_text
  /\ errorDetails st' = underlying_error outcome
  /\ (exists entry, logs st' = (logs st ++ [entry])%list)
  /\ talks st' = talks st.

Definition unknown_format : string := "Unknown response format".
Definition load_failed : string := "Failed to load greeting.".

Definition greeting_failed_entry (err_message : string) : string :=
  "Failed to fetch greeting: " ++ err_message.

(** The body of [r] has a [message] field holding [m]. *)
Definition has_message (r : AxiosResponse (option HelloBody)) (m : string)
    : Prop :=
  exists body, data r = Some body /\ message body = Some m.

(** The body of [r] is missing or has no [message] field. *)
Definition lacks_message (r : AxiosResponse (option HelloBody)) : Prop :=
  data r = None \/ exists body, data r = Some body /\ message body = None.

(** C9 as it is written: any message field becomes the greeting. *)
Definition greeting_follows_body (outcome : Settled (option HelloBody))
    (st : State) : Prop :=
  let st' := settleGreeting outcome st in
  match outcome with
  | Fulfilled r =>
      (forall m, has_message r m -> greeting st' = m)
      /\ (lacks_message r -> greeting st' = unknown_format)
  | Rejected e =>
      greeting st' = load_failed
      /\ logs st' = (logs st ++ [greeting_failed_entry e])%list
  end.

Definition alternate : string := "TED AI".

(** The 18 values of [Math.floor(Math.random() * 18)], each as likely as
    the other. *)
Definition draws : list nat := seq 0 18.

(** The probability that the chooser returns [keyword]: the share of the
    draws that give it. *)
Definition chance (keyword : string) : Q :=
  Z.of_nat
    (length (filter (fun d => determineInitialKeyword d = Some keyword) draws))
  # 18.

(** The guard of the initial-keyword effect is closed in [w]. *)
Definition keyword_chosen (w : World) : Prop := initialKeyword (ui w) <> "".

Definition is_search (r : Request) : bool :=
  match r with GetSearch _ => true | GetHello _ => false end.

(** The search requests that are in flight. *)
Definition searchesInFlight (w : World) : list Request :=
  List.filter is_search (inflight w).

(** The events of a render pass: React renders again, or runs the effects
    a second time. *)
Definition is_render (e : Event) : bool :=
  match e with Rerender | RunEffects _ => true | _ => false end.

Definition selected_in_results (st : State) : Prop :=
  match selectedTalk st with
  | Some talk => talk ∈ talks st
  | None => True
  end.

Definition otherTalk : Talk :=
  mkTalk "Another talk" "https://www.ted.com/talks/another_talk" [].

Definition demoEvents : list Event :=
  [ RunEffects 3;
    SearchSettles 1 (Fulfilled (mkResponse 200 "OK" [demoTalk; otherTalk]))
      (fun _ => (3 # 4)%Q);
    ClickResult 1;
    InputChange "ocean";
    KeyDown "Enter";
    SearchSettles 1 (Rejected "Network Error") (fun _ => 0%Q) ].




(** [c] does not occur in [s]. *)
Fixpoint free_of (c : ascii) (s : string) : bool :=
  match s with
  | EmptyString => true
  | String a s' => negb (Ascii.eqb a c) && free_of c s'
  end.

(** [s] goes on with one more character of the name. *)
Definition starts_with_word (s : string) : bool :=
  match s with
  | EmptyString => false
  | String c _ => Regex.word_char c
  end.

Definition embed_address (name : string) : string :=
  "https://embed.ted.com/talks/" ++ name ++ "?subtitle=en".

(** The error paragraph shows nothing or the fixed message. *)
Definition error_is_fixed (st : State) : Prop :=
  error st = None \/ error st = Some failure_text.

(** While the spinner turns, a search is in flight. *)
Definition spinner_has_request (w : World) : Prop :=
  loading (ui w) = true -> searchesInFlight w <> [].

(** [tag] names nothing in [sdgTitleMap], own or inherited. *)
Definition unknown_tag (tag : string) : Prop :=
  sdgTitleMap_get tag = Absent.

(** [n] separators in a row. *)
Fixpoint separators (n : nat) : string :=
  match n with
  | O => ""
  | S n' => ", " ++ separators n'
  end.

Definition is_hello (r : Request) : bool :=
  match r with GetHello _ => true | GetSearch _ => false end.

(** The greeting requests that are in flight. *)
Definition greetingsInFlight (w : World) : list Request :=
  List.filter is_hello (inflight w).

(** How often a sequence of events runs the effects. *)
Definition effect_runs (es : list Event) : nat :=
  length (List.filter (fun e => match e with RunEffects _ => true | _ => false end) es).

(** A string that is one unpaired surrogate, [U+D800]. *)
Definition unpaired_surrogate : string :=
  String (ascii_of_nat 237) (String (ascii_of_nat 160)
    (String (ascii_of_nat 128) EmptyString)).

(** The text an event types into the input can be encoded. *)
Definition types_well_formed (e : Event) : bool :=
  match e with
  | InputChange value => well_formed value
  | _ => true
  end.

(** While the spinner turns a search is in flight, and the text in the
    input can be encoded. *)
Definition spinner_invariant (w : World) : Prop :=
  spinner_has_request w /\ well_formed (query (ui w)) = true.

(** * Properties *)

(** ** What [performSearch] sends *)

Lemma encodeURIComponent_well_formed (s : string) :
  well_formed s = true -> encodeURIComponent s = Js.Return (percentEncode s).
Proof. unfold encodeURIComponent. now intros ->. Qed.


Lemma performSearch_sends (searchQuery : string) (w : World) :
  well_formed searchQuery = true ->
  performSearch searchQuery w
  = mkWorld (setError None (setLoading true (ui w)))
            (inflight w ++ [GetSearch (search_address searchQuery)]).
Proof.
  intros H. unfold performSearch.
  now rewrite (encodeURIComponent_well_formed searchQuery H).
Qed.

Lemma performSearch_throws (searchQuery : string) (w : World) :
  well_formed searchQuery = false ->
  performSearch searchQuery w
  = mkWorld (setError None (setLoading true (ui w))) (inflight w).
Proof.
  intros H. unfold performSearch, encodeURIComponent. now rewrite H.
Qed.

Lemma keywords_well_formed (randomNumber : nat) (keyword : string) :
  determineInitialKeyword randomNumber = Some keyword ->
  well_formed keyword = true.
Proof.
  intros H. assert (Hin : keyword ∈ alternate :: topics).
  { destruct randomNumber as [|i]; simpl in H.
    - injection H as <-. apply list_elem_of_here.
    - apply list_elem_of_further. exact (list_elem_of_lookup_2 _ _ _ H). }
  clear H. revert keyword Hin. apply Forall_forall. repeat constructor.
Qed.



(** Two bytes of a Latin letter and the four bytes of a character beyond
    the basic plane are well formed; a surrogate on its own and an
    overlong form are not. *)
Example well_formed_samples :
  well_formed (String (ascii_of_nat 195) (String (ascii_of_nat 169) "")) = true
  /\ well_formed
       (String (ascii_of_nat 240) (String (ascii_of_nat 159)
          (String (ascii_of_nat 152) (String (ascii_of_nat 128) "")))) = true
  /\ well_formed unpaired_surrogate = false
  /\ well_formed (String (ascii_of_nat 192) (String (ascii_of_nat 128) "")) = false
  /\ encodeURIComponent "TED AI" = Js.Return "TED%20AI".
Proof. repeat split. Qed.

(** ** The pattern and its matcher *)

Local Arguments String.append : simpl nomatch.

Lemma strip_prefix_app (p s : string) : Regex.strip_prefix p (p ++ s) = Some s.
Proof.
  induction p as [|a p IH]; simpl; [reflexivity |].
  now rewrite Ascii.eqb_refl.
Qed.

Lemma strip_prefix_Some (p s r : string) :
  Regex.strip_prefix p s = Some r -> s = p ++ r.
Proof.
  revert s; induction p as [|a p IH]; intros s H; simpl in *.
  - now inversion H.
  - destruct s as [|b s]; [discriminate |].
    destruct (Ascii.eqb a b) eqn:E; [| discriminate].
    apply Ascii.eqb_eq in E; subst b. now rewrite (IH s H).
Qed.

Lemma take_word_all (name : string) :
  Regex.all_word name = true -> Regex.take_word name = name.
Proof.
  induction name as [|c name IH]; simpl; [reflexivity |].
  intros H. apply andb_true_iff in H as [Hc Hn].
  now rewrite Hc, IH.
Qed.

Lemma take_word_split (s : string) :
  exists rest, s = Regex.take_word s ++ rest
               /\ Regex.all_word (Regex.take_word s) = true.
Proof.
  induction s as [|c s (rest & Hs & Hw)]; simpl.
  - now exists "".
  - destruct (Regex.word_char c) eqn:E.
    + exists rest; simpl. rewrite E, Hw. split; [now rewrite <- Hs | reflexivity].
    + now exists (String c s).
Qed.

Lemma take_word_nonempty (name rest : string) :
  name <> "" -> Regex.all_word name = true ->
  Regex.take_word (name ++ rest) <> "".
Proof.
  destruct name as [|c name]; [congruence |]; simpl.
  intros _ H. apply andb_true_iff in H as [-> _]. discriminate.
Qed.

Lemma match_here_Some (s name : string) :
  Regex.match_here s = Some name ->
  exists rest, s = Regex.ted_prefix ++ name ++ rest
               /\ name <> "" /\ Regex.all_word name = true.
Proof.
  unfold Regex.match_here.
  destruct (Regex.strip_prefix Regex.ted_prefix s) as [r|] eqn:E; [| discriminate].
  apply strip_prefix_Some in E.
  destruct (take_word_split r) as (rest & Hr & Hw).
  destruct (Regex.take_word r) as [|c n] eqn:T; [discriminate |].
  intros [= <-]. exists rest. now rewrite <- Hr.
Qed.

Lemma match_here_occurrence (name rest : string) :
  name <> "" -> Regex.all_word name = true ->
  is_Some (Regex.match_here (Regex.ted_prefix ++ name ++ rest)).
Proof.
  intros Hn Hw. unfold Regex.match_here.
  rewrite strip_prefix_app.
  pose proof (take_word_nonempty name rest Hn Hw) as T.
  destruct (Regex.take_word (name ++ rest)); [congruence | eauto].
Qed.

Lemma exec_unfold (s : string) :
  Regex.exec s =
  match Regex.match_here s with
  | Some name => Some name
  | None => match s with EmptyString => None | String _ s' => Regex.exec s' end
  end.
Proof. destruct s; reflexivity. Qed.

(** Whatever the matcher captures is an occurrence of the pattern. *)
Lemma exec_Some (s name : string) :
  Regex.exec s = Some name ->
  exists pre rest, s = pre ++ Regex.ted_prefix ++ name ++ rest
                   /\ name <> "" /\ Regex.all_word name = true.
Proof.
  induction s as [|c s IH]; rewrite exec_unfold.
  - destruct (Regex.match_here "") eqn:E; [| discriminate].
    intros [= ->]. apply match_here_Some in E as (rest & ? & ?).
    now exists "", rest.
  - destruct (Regex.match_here (String c s)) eqn:E.
    + intros [= ->]. apply match_here_Some in E as (rest & ? & ?).
      now exists "", rest.
    + intros H. destruct (IH H) as (pre & rest & -> & ?).
      now exists (String c pre), rest.
Qed.

(** The matcher misses no occurrence. *)
Lemma exec_complete (s : string) :
  matches_talk_page s -> is_Some (Regex.exec s).
Proof.
  intros (pre & name & rest & -> & Hn & Hw).
  induction pre as [|c pre IH].
  - change (is_Some (Regex.exec (Regex.ted_prefix ++ name ++ rest))).
    rewrite exec_unfold.
    destruct (match_here_occurrence name rest Hn Hw) as [x ->]. eauto.
  - change (is_Some (Regex.exec
              (String c (pre ++ Regex.ted_prefix ++ name ++ rest)))).
    rewrite exec_unfold.
    destruct (Regex.match_here _); [eauto |]. exact IH.
Qed.

Lemma exec_None_iff (s : string) :
  Regex.exec s = None <-> ~ matches_talk_page s.
Proof.
  split.
  - intros E M. apply exec_complete in M as [x Hx]. congruence.
  - intros N. destruct (Regex.exec s) as [name|] eqn:E; [| reflexivity].
    exfalso. apply N. apply exec_Some in E as (pre & rest & ? & ? & ?).
    now exists pre, name, rest.
Qed.

Lemma exec_talk_page (name : string) :
  name <> "" -> Regex.all_word name = true ->
  Regex.exec (Regex.ted_prefix ++ name) = Some name.
Proof.
  intros Hn Hw. rewrite exec_unfold. unfold Regex.match_here.
  rewrite strip_prefix_app, (take_word_all name Hw).
  destruct name; [congruence | reflexivity].
Qed.

Local Arguments String.append : simpl never.

(** ** [generateEmbedUrl] *)

Example embed_some_talk :
  generateEmbedUrl (Js.Str "https://www.ted.com/talks/some_talk_name")
  = Js.Return (Js.Str "https://embed.ted.com/talks/some_talk_name?subtitle=en").
Proof. reflexivity. Qed.

(** The pattern is not anchored: what surrounds the first occurrence is
    dropped by the rewrite. *)
Example embed_drops_surroundings :
  generateEmbedUrl (Js.Str "https://www.ted.com/talks/a_talk?language=en")
  = Js.Return (Js.Str "https://embed.ted.com/talks/a_talk?subtitle=en").
Proof. reflexivity. Qed.

Lemma generateEmbedUrl_string (s : string) :
  generateEmbedUrl (Js.Str s) =
  match Regex.exec s with
  | Some name =>
      Js.Return (Js.Str ("https://embed.ted.com/talks/" ++ name ++ "?subtitle=en"))
  | None => Js.Return (Js.Str s)
  end.
Proof.
  destruct s as [|c s]; [reflexivity |].
  unfold generateEmbedUrl; simpl. reflexivity.
Qed.

(** C4. [generateEmbedUrl] (the spec's [embedUrlFor]) is a function of its
    argument alone, and: on [https://www.ted.com/talks/<name>], with
    [<name>] one or more characters of [[A-Za-z0-9_]], it returns
    [https://embed.ted.com/talks/<name>?subtitle=en]; on a string that the
    pattern does not match (no occurrence of such an address in it) it
    returns the string itself; on [undefined] it returns the empty
    string. *)
Theorem generateEmbedUrl_talk_pages :
  (forall name : string,
      name <> "" -> Regex.all_word name = true ->
      generateEmbedUrl (Js.Str (Regex.ted_prefix ++ name))
      = Js.Return
          (Js.Str ("https://embed.ted.com/talks/" ++ name ++ "?subtitle=en")))
  /\ (forall s : string,
        ~ matches_talk_page s ->
        generateEmbedUrl (Js.Str s) = Js.Return (Js.Str s))
  /\ generateEmbedUrl Js.Undefined = Js.Return (Js.Str "").
Proof.
  split; [| split].
  - intros name Hn Hw.
    now rewrite generateEmbedUrl_string, (exec_talk_page name Hn Hw).
  - intros s Hs. apply exec_None_iff in Hs.
    now rewrite generateEmbedUrl_string, Hs.
  - reflexivity.
Qed.

Lemma generateEmbedUrl_talk_pages_witness :
  generateEmbedUrl (Js.Str (Regex.ted_prefix ++ "some_talk_name"))
  = Js.Return (Js.Str ("https://embed.ted.com/talks/" ++ "some_talk_name"
                       ++ "?subtitle=en"))
  /\ generateEmbedUrl (Js.Str "https://example.org/watch?v=1")
     = Js.Return (Js.Str "https://example.org/watch?v=1").
Proof.
  destruct generateEmbedUrl_talk_pages as (Hpage & Hother & _).
  split.
  - apply Hpage; [discriminate | reflexivity].
  - apply Hother. apply exec_None_iff. reflexivity.
Defined.

(** A number is not a string, and it comes back as it is. *)
Lemma degrades_to_empty_fails_on_number : ~ degrades_to_empty (Js.Number 42).
Proof.
  intros H. specialize (H (or_intror (or_intror eq_refl))). discriminate H.
Qed.

(** C5, amended. On [undefined] and [null] [generateEmbedUrl] returns the
    empty string; any other value that is not a string is returned as it
    is; and no input at all makes it throw. *)
Theorem generateEmbedUrl_non_string (v : Js.value) :
  (v = Js.Undefined \/ v = Js.Null ->
   generateEmbedUrl v = Js.Return (Js.Str ""))
  /\ (Js.is_string v = false -> v <> Js.Undefined -> v <> Js.Null ->
      generateEmbedUrl v = Js.Return v)
  /\ (exists r, generateEmbedUrl v = Js.Return r).
Proof.
  split; [| split].
  - now intros [-> | ->].
  - destruct v as [| |b|n| |s|]; try discriminate; try congruence; intros _ _ _.
    + now destruct b.
    + unfold generateEmbedUrl; simpl. now destruct (n =? 0)%Z.
    + reflexivity.
    + reflexivity.
  - destruct v as [| |b|n| |s|]; try (eexists; reflexivity).
    + destruct b; eexists; reflexivity.
    + unfold generateEmbedUrl; simpl. destruct (n =? 0)%Z; eexists; reflexivity.
    + rewrite generateEmbedUrl_string. destruct (Regex.exec s); eexists; reflexivity.
Qed.

Lemma generateEmbedUrl_non_string_witness :
  generateEmbedUrl Js.Null = Js.Return (Js.Str "")
  /\ generateEmbedUrl (Js.Number 42) = Js.Return (Js.Number 42).
Proof.
  split.
  - apply (generateEmbedUrl_non_string Js.Null). right; reflexivity.
  - apply (generateEmbedUrl_non_string (Js.Number 42));
      [reflexivity | discriminate | discriminate].
Defined.

(** ** The randomised sort *)

Section SortFacts.
Context {A : Type} (rnd : RandomSort.Random).

Lemma insert_back_perm (element : A) (prefix_rev : list A) (k : nat) :
  (RandomSort.insert_back rnd element prefix_rev k).1 ≡ₚ element :: prefix_rev.
Proof.
  revert k; induction prefix_rev as [|tmp rest IH]; intros k; simpl.
  - reflexivity.
  - destruct (RandomSort.comparefn rnd k); try reflexivity.
    specialize (IH (S k)).
    destruct (RandomSort.insert_back rnd element rest (S k)) as [r k'].
    simpl in *. rewrite IH. apply perm_swap.
Qed.

Lemma sort_from_perm (prefix_rev todo : list A) (k : nat) :
  (RandomSort.sort_from rnd prefix_rev todo k).1 ≡ₚ (prefix_rev ++ todo)%list.
Proof.
  revert prefix_rev k; induction todo as [|element todo IH];
    intros prefix_rev k; simpl.
  - rewrite app_nil_r. symmetry. apply Permutation_rev.
  - pose proof (insert_back_perm element prefix_rev k) as Hp.
    destruct (RandomSort.insert_back rnd element prefix_rev k) as [p k'].
    simpl in Hp. rewrite IH, Hp. apply Permutation_middle.
Qed.

(** Whatever the random numbers are, the sort only reorders. *)
Lemma sort_perm (a : list A) : RandomSort.sort rnd a ≡ₚ a.
Proof. unfold RandomSort.sort. now rewrite sort_from_perm. Qed.

Lemma sort_length (a : list A) : length (RandomSort.sort rnd a) = length a.
Proof. apply Permutation_length, sort_perm. Qed.
End SortFacts.

Example sort_swaps :
  RandomSort.sort (fun _ => 3 # 4)%Q [1; 2; 3] = [3; 2; 1].
Proof. reflexivity. Qed.

Example sort_keeps :
  RandomSort.sort (fun _ => 1 # 4)%Q [1; 2; 3] = [1; 2; 3].
Proof. reflexivity. Qed.

(** ** A search that succeeds *)

(** With one talk in the answer the log grows by two entries. *)
Lemma success_appends_one_entry_fails :
  ~ success_appends_one_entry (mkResponse 200 "OK" [demoTalk])
      (fun _ => 0%Q) (ui (mount [])).
Proof.
  intros H. destruct (H eq_refl) as (_ & _ & _ & entry & Hlogs).
  vm_compute in Hlogs. discriminate Hlogs.
Qed.

(** C1, amended. When a search is answered with status 200, the results
    become a permutation of the parsed list (so the lengths agree), the
    selected talk is the first stored result, or none when there is no
    result, and the log gains the entry that counts the results, followed,
    when there is a result, by a second entry that names the first one:
    one entry for an empty list, two otherwise. *)
Theorem search_success (r : AxiosResponse (list Talk))
    (rnd : RandomSort.Random) (st : State) :
  status r = 200 ->
  let st' := settleSearch (Fulfilled r) rnd st in
  talks st' ≡ₚ data r
  /\ length (talks st') = length (data r)
  /\ selectedTalk st' = head (talks st')
  /\ logs st' =
     (logs st
      ++ retrieved_entry (length (data r))
         :: match head (talks st') with
            | Some first => [example_entry first]
            | None => []
            end)%list
  /\ length (logs st') =
     (length (logs st) + match data r with [] => 1 | _ :: _ => 2 end)%nat.
Proof.
  intros H200 st'. subst st'.
  unfold settleSearch, searchThen. rewrite H200. simpl negb. cbv iota.
  pose proof (sort_perm rnd (data r)) as Hperm.
  pose proof (sort_length rnd (data r)) as Hlen.
  destruct (RandomSort.sort rnd (data r)) as [|first rest] eqn:Hsort; simpl.
  - destruct (data r); [| discriminate Hlen].
    repeat split; try reflexivity. now rewrite length_app.
  - repeat split; try assumption.
    + now rewrite <- app_assoc, <- Hlen.
    + destruct (data r); [discriminate Hlen |].
      rewrite !length_app. simpl. lia.
Qed.

Lemma search_success_witness :
  let st' := settleSearch (Fulfilled (mkResponse 200 "OK" [demoTalk]))
               (fun _ => 0%Q) (ui (mount [])) in
  talks st' = [demoTalk] /\ selectedTalk st' = Some demoTalk
  /\ length (logs st') = 2.
Proof.
  destruct (search_success (mkResponse 200 "OK" [demoTalk]) (fun _ => 0%Q)
              (ui (mount [])) eq_refl) as (_ & _ & Hsel & _ & Hlog).
  split; [reflexivity | split; [exact Hsel | exact Hlog]].
Defined.

(** ** A search that fails *)

(** A response that arrives with status 204 is logged twice: by [then],
    which then throws, and by [catch]. *)
Lemma failure_appends_one_entry_fails :
  ~ failure_appends_one_entry (Fulfilled (mkResponse 204 "No Content" []))
      (fun _ => 0%Q) (ui (mount [])).
Proof.
  intros H. assert (Hf : search_failed (Fulfilled (mkResponse 204 "No Content" (@nil Talk))))
    by (simpl; lia).
  destruct (H Hf) as (_ & _ & (entry & Hlogs) & _).
  vm_compute in Hlogs. discriminate Hlogs.
Qed.

(** C2, amended. When a search fails, by a rejected request or by a
    response whose status is not 200, the error becomes the fixed
    message, the text of the underlying error is kept in the diagnostics
    state, and the results are what they were. A rejected request appends
    one log entry; a response with another status than 200 appends two,
    the status line of [then] and the failure line of [catch]. *)
Theorem search_failure (outcome : Settled (list Talk))
    (rnd : RandomSort.Random) (st : State) :
  search_failed outcome ->
  let st' := settleSearch outcome rnd st in
  error st' = Some failure_text
  /\ errorDetails st' = underlying_error outcome
  /\ logs st' =
     (logs st
      ++ match outcome with
         | Rejected m => [failed_entry m]
         | Fulfilled r =>
             [status_entry r; failed_entry (underlying_error outcome)]
         end)%list
  /\ talks st' = talks st.
Proof.
  intros Hfail st'. subst st'. destruct outcome as [r | m]; simpl in Hfail.
  - unfold settleSearch, searchThen.
    apply Nat.eqb_neq in Hfail. rewrite Hfail. simpl.
    repeat split. now rewrite <- app_assoc.
  - repeat split.
Qed.

Lemma search_failure_witness :
  let st' := settleSearch (Rejected "Network Error") (fun _ => 0%Q)
               (setTalks [demoTalk] (ui (mount []))) in
  error st' = Some failure_text /\ talks st' = [demoTalk].
Proof.
  destruct (search_failure (Rejected "Network Error") (fun _ => 0%Q)
              (setTalks [demoTalk] (ui (mount []))) I) as (He & _ & _ & Ht).
  split; [exact He | exact Ht].
Defined.

(** ** Loading *)

(** X16. A search that completes leaves [loading] false: while [loading]
    is true the request that [performSearch] sent, for a query that can
    be encoded, is in flight; it can settle, and when it does, by success
    or by failure, [loading] is false. The reset does not look at the
    state, so the same holds when other events came in between. *)
Theorem search_completion_clears_loading (searchQuery : string) (w : World)
    (outcome : Settled (list Talk)) (rnd : RandomSort.Random) :
  loading (ui (performSearch searchQuery w)) = true
  /\ (well_formed searchQuery = true ->
      exists w',
        step (SearchSettles (length (inflight w)) outcome rnd)
             (performSearch searchQuery w) = Some w'
        /\ loading (ui w') = false)
  /\ (forall st : State, loading (settleSearch outcome rnd st) = false).
Proof.
  split; [reflexivity | split].
  - intros Hq. rewrite (performSearch_sends searchQuery w Hq). simpl.
    rewrite lookup_app_r by lia. rewrite Nat.sub_diag. simpl.
    eexists; split; reflexivity.
  - reflexivity.
Qed.

Lemma search_completion_clears_loading_witness :
  exists w',
    step (SearchSettles 0 (Rejected "Network Error") (fun _ => 0%Q))
         (performSearch "ocean" (mount [])) = Some w'
    /\ loading (ui w') = false.
Proof.
  destruct (search_completion_clears_loading "ocean" (mount [])
              (Rejected "Network Error") (fun _ => 0%Q)) as (_ & H & _).
  exact (H eq_refl).
Defined.


(** ** Selecting a result *)

(** C8. Clicking the result rendered at a position of the results list
    selects exactly the talk at that position and leaves the results (and
    the requests in flight) as they were. *)
Theorem select_result (w : World) (index : nat) (talk : Talk) :
  talks (ui w) !! index = Some talk ->
  exists w',
    step (ClickResult index) w = Some w'
    /\ selectedTalk (ui w') = Some talk
    /\ talks (ui w') = talks (ui w)
    /\ inflight w' = inflight w.
Proof.
  intros Hidx. simpl. unfold clickResult. rewrite Hidx.
  eexists. repeat split.
Qed.

Lemma select_result_witness :
  exists w',
    step (ClickResult 0) (mkWorld (setTalks [demoTalk] (ui (mount []))) [])
    = Some w'
    /\ selectedTalk (ui w') = Some demoTalk.
Proof.
  destruct (select_result (mkWorld (setTalks [demoTalk] (ui (mount []))) [])
              0 demoTalk eq_refl) as (w' & Hs & Hsel & _).
  exists w'. split; [exact Hs | exact Hsel].
Defined.

(** ** The greeting *)

(** An empty message is a message field, and the fallback is shown. *)
Lemma greeting_follows_body_fails :
  ~ greeting_follows_body
      (Fulfilled (mkResponse 200 "OK" (Some (mkHello (Some "")))))
      (ui (mount [])).
Proof.
  intros [H _].
  specialize (H "" (ex_intro _ (mkHello (Some "")) (conj eq_refl eq_refl))).
  discriminate H.
Qed.

(** C9, amended. When the greeting request is answered: a body with a
    non-empty [message] field makes that message the greeting; a body
    without the field, a missing body, or an empty message gives the fixed
    fallback. When the request fails, the greeting is the fixed failure
    string, the error text is kept in the diagnostics state and a log
    entry with the error text is appended. *)
Theorem greeting_settles (outcome : Settled (option HelloBody)) (st : State) :
  let st' := settleGreeting outcome st in
  match outcome with
  | Fulfilled r =>
      (forall m, has_message r m -> m <> "" -> greeting st' = m)
      /\ (lacks_message r \/ has_message r "" -> greeting st' = unknown_format)
  | Rejected e =>
      greeting st' = load_failed
      /\ errorDetails st' = e
      /\ logs st' = (logs st ++ [greeting_failed_entry e])%list
  end.
Proof.
  destruct outcome as [r | e]; simpl; [| repeat split].
  unfold greetingThen. split.
  - intros m (body & -> & ->) Hm.
    destruct m; [congruence | reflexivity].
  - intros [[-> | (body & -> & ->)] | (body & -> & ->)]; reflexivity.
Qed.

Lemma greeting_settles_witness :
  greeting (settleGreeting
              (Fulfilled (mkResponse 200 "OK" (Some (mkHello (Some "Hello")))))
              (ui (mount []))) = "Hello"
  /\ greeting (settleGreeting
                 (Fulfilled (mkResponse 200 "OK" (Some (mkHello None))))
                 (ui (mount []))) = unknown_format.
Proof.
  split.
  - apply (greeting_settles
             (Fulfilled (mkResponse 200 "OK" (Some (mkHello (Some "Hello")))))
             (ui (mount []))).
    + exists (mkHello (Some "Hello")). split; reflexivity.
    + discriminate.
  - apply (greeting_settles
             (Fulfilled (mkResponse 200 "OK" (Some (mkHello None))))
             (ui (mount []))).
    left; right. exists (mkHello None). split; reflexivity.
Defined.

(** ** The initial keyword *)

Lemma determineInitialKeyword_lookup (randomNumber : nat) :
  determineInitialKeyword randomNumber = (alternate :: topics) !! randomNumber.
Proof. destruct randomNumber; reflexivity. Qed.

Lemma keywords_NoDup : NoDup (alternate :: topics).
Proof. apply (bool_decide_unpack (NoDup (alternate :: topics))). vm_compute. exact I. Qed.

Lemma determineInitialKeyword_inj (d1 d2 : nat) (keyword : string) :
  determineInitialKeyword d1 = Some keyword ->
  determineInitialKeyword d2 = Some keyword -> d1 = d2.
Proof.
  rewrite !determineInitialKeyword_lookup.
  apply NoDup_lookup, keywords_NoDup.
Qed.

Lemma determineInitialKeyword_in_range (randomNumber : nat) :
  randomNumber < 18 -> is_Some (determineInitialKeyword randomNumber).
Proof.
  intros H. rewrite determineInitialKeyword_lookup.
  apply lookup_lt_is_Some. simpl. lia.
Qed.

Lemma determineInitialKeyword_nonempty (randomNumber : nat) (keyword : string) :
  determineInitialKeyword randomNumber = Some keyword -> keyword <> "".
Proof.
  rewrite determineInitialKeyword_lookup. intros H.
  apply list_elem_of_lookup_2 in H. revert keyword H.
  apply Forall_forall. repeat constructor; discriminate.
Qed.

(** C7. The chooser sends the 18 equally likely draws [0..17] to 18
    different keywords: draw 0 to the alternate ["TED AI"], draws 1 to 17
    to the 17 topics in their order. So the alternate has probability
    1/18, and so has each of the 17 topics. *)
Theorem initial_keyword_distribution :
  determineInitialKeyword 0 = Some alternate
  /\ length topics = 17
  /\ determineInitialKeyword <$> draws = Some <$> (alternate :: topics)
  /\ NoDup (determineInitialKeyword <$> draws)
  /\ chance alternate = (1 # 18)%Q
  /\ Forall (fun topic => chance topic = (1 # 18)%Q) topics.
Proof.
  assert (Hmap : determineInitialKeyword <$> draws
                 = Some <$> (alternate :: topics)) by reflexivity.
  repeat split; try reflexivity.
  - rewrite Hmap. apply (NoDup_fmap_2 Some), keywords_NoDup.
  - repeat constructor.
Qed.

(** ** The initial search *)

Lemma settleSearch_initialKeyword (outcome : Settled (list Talk))
    (rnd : RandomSort.Random) (st : State) :
  initialKeyword (settleSearch outcome rnd st) = initialKeyword st.
Proof.
  destruct outcome as [r | m]; [| reflexivity].
  unfold settleSearch, searchThen.
  destruct (negb (status r =? 200)%nat); [reflexivity |].
  destruct (RandomSort.sort rnd (data r)); reflexivity.
Qed.

Lemma settleGreeting_initialKeyword (outcome : Settled (option HelloBody))
    (st : State) :
  initialKeyword (settleGreeting outcome st) = initialKeyword st.
Proof.
  destruct outcome as [r | m]; [| reflexivity].
  unfold settleGreeting, greetingThen.
  destruct (data r) as [[[m|]]|]; simpl; try reflexivity.
  destruct (nonempty m); reflexivity.
Qed.

Lemma initialKeywordEffect_idle (randomNumber : nat) (w : World) :
  keyword_chosen w -> initialKeywordEffect randomNumber w = Some w.
Proof.
  unfold keyword_chosen, initialKeywordEffect. intros H.
  destruct (String.eqb_spec (initialKeyword (ui w)) ""); [contradiction | reflexivity].
Qed.

Lemma initialKeywordEffect_chosen (randomNumber : nat) (w w' : World) :
  initialKeywordEffect randomNumber w = Some w' -> keyword_chosen w'.
Proof.
  unfold keyword_chosen, initialKeywordEffect.
  destruct (String.eqb_spec (initialKeyword (ui w)) "") as [E | E].
  - destruct (determineInitialKeyword randomNumber) as [keyword|] eqn:K;
      [| discriminate].
    intros [= <-]. simpl. now apply determineInitialKeyword_nonempty in K.
  - now intros [= <-].
Qed.

(** No event opens the guard again. *)
Lemma step_keyword_chosen (e : Event) (w w' : World) :
  step e w = Some w' -> keyword_chosen w -> keyword_chosen w'.
Proof.
  unfold keyword_chosen. destruct e; cbn [step].
  - intros H _. now apply initialKeywordEffect_chosen in H.
  - now intros [= <-].
  - now intros [= <-].
  - unfold handleKeyPress. intros [= <-]. now destruct (String.eqb key "Enter").
  - destruct (loading (ui w)); [discriminate |]. now intros [= <-].
  - unfold openTranscriptInNewTab.
    destruct (selectedTalk (ui w)); [| discriminate]. now intros [= <-].
  - unfold clickResult. destruct (talks (ui w) !! index); [| discriminate].
    now intros [= <-].
  - destruct (inflight w !! i) as [[|]|]; try discriminate.
    intros [= <-]. cbn [ui]. now rewrite settleSearch_initialKeyword.
  - destruct (inflight w !! i) as [[|]|]; try discriminate.
    intros [= <-]. cbn [ui]. now rewrite settleGreeting_initialKeyword.
Qed.

Lemma run_keyword_chosen (es : list Event) (w w' : World) :
  run es w = Some w' -> keyword_chosen w -> keyword_chosen w'.
Proof.
  revert w; induction es as [|e es IH]; intros w; simpl.
  - now intros [= <-].
  - destruct (step e w) as [w1|] eqn:E; [| discriminate].
    intros Hrun Hw. apply (IH w1 Hrun). exact (step_keyword_chosen e w w1 E Hw).
Qed.

(** A render pass after the guard is closed: the hook state stays, and so
    do the searches in flight. *)
Lemma render_pass_idle (es : list Event) (w : World) :
  forallb is_render es = true -> keyword_chosen w ->
  exists w', run es w = Some w'
             /\ ui w' = ui w
             /\ searchesInFlight w' = searchesInFlight w.
Proof.
  revert w; induction es as [|e es IH]; intros w Hes Hw; simpl.
  - now exists w.
  - simpl in Hes. apply andb_true_iff in Hes as [He Hes].
    destruct e; try discriminate He; simpl.
    + rewrite initialKeywordEffect_idle by exact Hw.
      destruct (IH (greetingEffect w) Hes Hw) as (w' & Hrun & Hui & Hs).
      exists w'. split; [exact Hrun | split; [exact Hui |]].
      rewrite Hs. unfold searchesInFlight, greetingEffect. simpl.
      rewrite List.filter_app. simpl. apply app_nil_r.
    + exact (IH w Hes Hw).
Qed.

(** C6. The initial search is issued once per mount. The first run of the
    effects, with a draw in [0..17], stores the keyword, puts it in the
    query and sends one search request for it. From then on, after any
    events whatever, the initial-keyword effect changes nothing when it
    is entered again; and a sequence of re-renders and repeated effect
    runs leaves the hook state and the searches in flight as they are: no
    second automatic search is sent. *)
Theorem initial_search_once (contextTalks : list Talk) (randomNumber : nat) :
  randomNumber < 18 ->
  exists keyword w1,
    determineInitialKeyword randomNumber = Some keyword
    /\ step (RunEffects randomNumber) (mount contextTalks) = Some w1
    /\ initialKeyword (ui w1) = keyword
    /\ query (ui w1) = keyword
    /\ searchesInFlight w1 = [GetSearch (search_address keyword)]
    /\ (forall es : list Event,
          forallb is_render es = true ->
          exists w', run es w1 = Some w'
                     /\ ui w' = ui w1
                     /\ searchesInFlight w'
                        = [GetSearch (search_address keyword)])
    /\ (forall (es : list Event) (w' : World),
          run es w1 = Some w' ->
          forall d : nat, initialKeywordEffect d w' = Some w').
Proof.
  intros Hd.
  destruct (determineInitialKeyword_in_range randomNumber Hd) as [keyword K].
  pose proof (keywords_well_formed randomNumber keyword K) as Hwf.
  set (w1 := mkWorld
               (setError None
                  (setLoading true
                     (setQuery keyword
                        (setInitialKeyword keyword (ui (mount contextTalks))))))
               [GetHello hello_address; GetSearch (search_address keyword)]).
  assert (Hstep : step (RunEffects randomNumber) (mount contextTalks) = Some w1).
  { cbn [step]. unfold initialKeywordEffect. cbn. rewrite K.
    now rewrite (performSearch_sends keyword _ Hwf). }
  assert (Hk : keyword_chosen w1)
    by exact (determineInitialKeyword_nonempty randomNumber keyword K).
  exists keyword, w1. split; [exact K |]. split; [exact Hstep |].
  do 3 (split; [reflexivity |]). split.
  - intros es Hes.
    destruct (render_pass_idle es _ Hes Hk) as (w' & Hrun & Hui & Hs).
    exists w'. repeat split; assumption.
  - intros es w' Hrun d.
    apply initialKeywordEffect_idle. exact (run_keyword_chosen es _ w' Hrun Hk).
Qed.

Lemma initial_search_once_witness :
  exists w1,
    step (RunEffects 3) (mount []) = Some w1
    /\ query (ui w1) = "health"
    /\ run [Rerender; RunEffects 7; Rerender] w1
       = Some (mkWorld (ui w1) (inflight w1 ++ [GetHello hello_address])).
Proof.
  destruct (initial_search_once [] 3 ltac:(lia))
    as (keyword & w1 & K & Hstep & _ & Hq & _ & _ & _).
  exists w1. injection K as <-.
  split; [exact Hstep |]. split; [exact Hq |].
  injection Hstep as <-. reflexivity.
Defined.

(** ** The selected talk is one of the results *)

Lemma settleSearch_selected (outcome : Settled (list Talk))
    (rnd : RandomSort.Random) (st : State) :
  selected_in_results st -> selected_in_results (settleSearch outcome rnd st).
Proof.
  intros H. destruct outcome as [r | m]; [| exact H].
  unfold settleSearch, searchThen.
  destruct (negb (status r =? 200)%nat); [exact H |].
  destruct (RandomSort.sort rnd (data r)) as [|first rest];
    unfold selected_in_results; cbn [selectedTalk talks searchFinally setLoading
      addLog setSelectedTalk setTalks]; [exact I | apply list_elem_of_here].
Qed.

Lemma settleGreeting_selected (outcome : Settled (option HelloBody))
    (st : State) :
  selected_in_results st -> selected_in_results (settleGreeting outcome st).
Proof.
  intros H. destruct outcome as [r | m]; [| exact H].
  unfold settleGreeting, greetingThen.
  destruct (data r) as [[[m|]]|]; simpl; try exact H.
  destruct (nonempty m); exact H.
Qed.

Lemma initialKeywordEffect_selected (randomNumber : nat) (w w' : World) :
  initialKeywordEffect randomNumber w = Some w' ->
  selected_in_results (ui w) -> selected_in_results (ui w').
Proof.
  unfold initialKeywordEffect.
  destruct (String.eqb (initialKeyword (ui w)) "").
  - destruct (determineInitialKeyword randomNumber); [| discriminate].
    now intros [= <-].
  - now intros [= <-].
Qed.

(** Every event keeps the selected talk among the results. *)
Lemma step_selected (e : Event) (w w' : World) :
  step e w = Some w' ->
  selected_in_results (ui w) -> selected_in_results (ui w').
Proof.
  destruct e; cbn [step].
  - exact (initialKeywordEffect_selected randomNumber (greetingEffect w) w').
  - now intros [= <-].
  - now intros [= <-].
  - unfold handleKeyPress. intros [= <-]. now destruct (String.eqb key "Enter").
  - destruct (loading (ui w)); [discriminate |]. now intros [= <-].
  - unfold openTranscriptInNewTab, selected_in_results.
    destruct (selectedTalk (ui w)) eqn:E; [| discriminate].
    intros [= <-]. cbn [ui selectedTalk talks addLog]. now rewrite E.
  - unfold clickResult. destruct (talks (ui w) !! index) as [talk|] eqn:E;
      [| discriminate].
    intros [= <-] _. unfold selected_in_results.
    cbn [ui selectedTalk talks setSelectedTalk].
    exact (list_elem_of_lookup_2 _ _ _ E).
  - destruct (inflight w !! i) as [[|]|]; try discriminate.
    intros [= <-]. apply settleSearch_selected.
  - destruct (inflight w !! i) as [[|]|]; try discriminate.
    intros [= <-]. apply settleGreeting_selected.
Qed.

(** C10. In every state that a mounted panel reaches, by the initial
    search, manual searches, searches that succeed or fail, selections and
    every other event of the page, in any order and with searches
    overlapping, the selected talk is either none or one of the current
    results. *)
Theorem selected_talk_is_a_result (contextTalks : list Talk)
    (es : list Event) (w : World) :
  run es (mount contextTalks) = Some w ->
  selected_in_results (ui w).
Proof.
  assert (Hinv : forall es w0 w1, run es w0 = Some w1 ->
            selected_in_results (ui w0) -> selected_in_results (ui w1)).
  { clear. induction es as [|e es IH]; intros w0 w1; simpl.
    - now intros [= <-].
    - destruct (step e w0) as [w'|] eqn:E; [| discriminate].
      intros Hrun H0. apply (IH w' w1 Hrun). exact (step_selected e w0 w' E H0). }
  intros Hrun. exact (Hinv es _ w Hrun I).
Qed.

Lemma selected_talk_is_a_result_witness :
  exists w, run demoEvents (mount []) = Some w
            /\ selectedTalk (ui w) = Some demoTalk
            /\ selected_in_results (ui w).
Proof.
  eexists. split; [reflexivity |]. split; [reflexivity |].
  apply (selected_talk_is_a_result [] demoEvents). reflexivity.
Defined.

(** * Further properties *)

(** ** The address of a search *)












(** ** More on [generateEmbedUrl] *)

Local Arguments String.append : simpl nomatch.

Lemma free_of_app (c : ascii) (s t : string) :
  free_of c (s ++ t) = free_of c s && free_of c t.
Proof.
  induction s as [|a s IH]; simpl; [reflexivity |].
  now rewrite IH, andb_assoc.
Qed.

Lemma all_word_free_of_colon (name : string) :
  Regex.all_word name = true -> free_of ":" name = true.
Proof.
  induction name as [|a name IH]; simpl; [reflexivity |].
  intros H. apply andb_true_iff in H as [Ha Hn]. rewrite (IH Hn), andb_true_r.
  destruct (Ascii.eqb_spec a ":") as [-> |]; [discriminate Ha | reflexivity].
Qed.

(** The pattern has a colon in it, so a subject without one has no
    match. *)
Lemma exec_free_of_colon (s : string) :
  free_of ":" s = true -> Regex.exec s = None.
Proof.
  intros H. apply exec_None_iff. intros (pre & name & rest & -> & _).
  rewrite free_of_app in H. apply andb_true_iff in H as [_ H].
  unfold Regex.ted_prefix in H. rewrite free_of_app in H.
  apply andb_true_iff in H as [H _]. discriminate H.
Qed.

(** The address of the player is no talk page. *)
Lemma exec_embed_address (name : string) :
  Regex.all_word name = true -> Regex.exec (embed_address name) = None.
Proof.
  intros Hw. unfold embed_address.
  assert (Hfree : free_of ":" (name ++ "?subtitle=en") = true)
    by (rewrite free_of_app, (all_word_free_of_colon name Hw); reflexivity).
  apply exec_free_of_colon in Hfree.
  change (Regex.exec ("https://embed.ted.com/talks/" ++ name ++ "?subtitle=en"))
    with (Regex.exec (name ++ "?subtitle=en")).
  exact Hfree.
Qed.

Lemma take_word_stops (name rest : string) :
  Regex.all_word name = true -> starts_with_word rest = false ->
  Regex.take_word (name ++ rest) = name.
Proof.
  intros Hw Hr. induction name as [|a name IH]; simpl.
  - destruct rest as [|c rest]; [reflexivity |]. simpl in Hr |- *. now rewrite Hr.
  - simpl in Hw. apply andb_true_iff in Hw as [Ha Hn]. now rewrite Ha, (IH Hn).
Qed.

Local Arguments String.append : simpl never.

(** X4. Rewriting twice is rewriting once: whatever [generateEmbedUrl]
    returns, for a string or for any other value, it returns again when
    it is given its own result. *)
Theorem generateEmbedUrl_idempotent (v : Js.value) :
  exists r, generateEmbedUrl v = Js.Return r /\ generateEmbedUrl r = Js.Return r.
Proof.
  destruct v as [| |b|n| |s|]; try (eexists; split; reflexivity).
  - destruct b; eexists; split; reflexivity.
  - exists (Js.Number n). unfold generateEmbedUrl; simpl.
    destruct (n =? 0)%Z; split; reflexivity.
  - rewrite generateEmbedUrl_string.
    destruct (Regex.exec s) as [name|] eqn:E.
    + eexists; split; [reflexivity |].
      apply exec_Some in E as (pre & rest & _ & _ & Hw).
      rewrite generateEmbedUrl_string.
      change ("https://embed.ted.com/talks/" ++ name ++ "?subtitle=en")
        with (embed_address name).
      now rewrite (exec_embed_address name Hw).
    + eexists; split; [reflexivity |].
      now rewrite generateEmbedUrl_string, E.
Qed.

(** X5. Only the name of the talk survives the rewrite: what follows the
    name in the address (a path such as [/transcript], a query such as
    [?language=ja], a fragment) is dropped, and the subtitle parameter is
    always [en]. *)
Theorem generateEmbedUrl_drops_the_rest (name rest : string) :
  name <> "" -> Regex.all_word name = true -> starts_with_word rest = false ->
  generateEmbedUrl (Js.Str (Regex.ted_prefix ++ name ++ rest))
  = Js.Return (Js.Str (embed_address name)).
Proof.
  intros Hn Hw Hr. rewrite generateEmbedUrl_string, exec_unfold.
  unfold Regex.match_here.
  rewrite strip_prefix_app, (take_word_stops name rest Hw Hr).
  destruct name; [congruence | reflexivity].
Qed.

Lemma generateEmbedUrl_drops_the_rest_witness :
  generateEmbedUrl
    (Js.Str (Regex.ted_prefix ++ "a_talk" ++ "/transcript?language=ja"))
  = Js.Return (Js.Str (embed_address "a_talk")).
Proof.
  apply generateEmbedUrl_drops_the_rest; [discriminate | reflexivity | reflexivity].
Defined.

(** ** How a search settles, case by case *)

Lemma settleSearch_rejected (m : string) (rnd : RandomSort.Random) (st : State) :
  settleSearch (Rejected m) rnd st = searchFinally (searchCatch m st).
Proof. reflexivity. Qed.

Lemma settleSearch_other_status (r : AxiosResponse (list Talk))
    (rnd : RandomSort.Random) (st : State) :
  status r <> 200 ->
  settleSearch (Fulfilled r) rnd st
  = searchFinally
      (searchCatch (underlying_error (Fulfilled r)) (addLog (status_entry r) st)).
Proof.
  intros H. unfold settleSearch, searchThen.
  apply Nat.eqb_neq in H. now rewrite H.
Qed.

Lemma settleSearch_ok (r : AxiosResponse (list Talk))
    (rnd : RandomSort.Random) (st : State) :
  status r = 200 ->
  settleSearch (Fulfilled r) rnd st
  = searchFinally
      match RandomSort.sort rnd (data r) with
      | first :: rest =>
          addLog (example_entry first)
            (setSelectedTalk (Some first)
               (addLog (retrieved_entry (length (first :: rest)))
                  (setTalks (first :: rest) st)))
      | [] =>
          setSelectedTalk None (addLog (retrieved_entry 0) (setTalks [] st))
      end.
Proof.
  intros H. unfold settleSearch, searchThen. rewrite H. simpl negb. cbv iota.
  now destruct (RandomSort.sort rnd (data r)).
Qed.

(** The three ways a search settles, as rewriting steps. *)
Ltac settle_cases outcome rnd st :=
  let r := fresh "r" in
  let m := fresh "m" in
  let H := fresh "Hstatus" in
  destruct outcome as [r | m];
  [ destruct (Nat.eq_dec (status r) 200) as [H | H];
    [ rewrite (settleSearch_ok r rnd st H);
      destruct (RandomSort.sort rnd (data r))
    | rewrite (settleSearch_other_status r rnd st H) ]
  | rewrite (settleSearch_rejected m rnd st) ].

Lemma settleSearch_loading (outcome : Settled (list Talk))
    (rnd : RandomSort.Random) (st : State) :
  loading (settleSearch outcome rnd st) = false.
Proof. reflexivity. Qed.

Lemma settleGreeting_frame (outcome : Settled (option HelloBody)) (st : State) :
  let st' := settleGreeting outcome st in
  talks st' = talks st /\ selectedTalk st' = selectedTalk st
  /\ loading st' = loading st /\ error st' = error st
  /\ query st' = query st /\ logs st `prefix_of` logs st'.
Proof.
  assert (Hrefl : logs st `prefix_of` logs st) by reflexivity.
  destruct outcome as [r | m]; simpl.
  - unfold greetingThen. destruct (data r) as [[[m|]]|]; simpl;
      try (repeat split; exact Hrefl).
    destruct (nonempty m); repeat split; exact Hrefl.
  - repeat split. now exists [greeting_failed_entry m].
Qed.

Lemma searches_performSearch (searchQuery : string) (w : World) :
  well_formed searchQuery = true ->
  searchesInFlight (performSearch searchQuery w)
  = (searchesInFlight w ++ [GetSearch (search_address searchQuery)])%list.
Proof.
  intros H. rewrite (performSearch_sends searchQuery w H).
  unfold searchesInFlight. simpl. now rewrite List.filter_app.
Qed.

Lemma settleSearch_query (outcome : Settled (list Talk))
    (rnd : RandomSort.Random) (st : State) :
  query (settleSearch outcome rnd st) = query st.
Proof. settle_cases outcome rnd st; reflexivity. Qed.

Lemma searches_greetingEffect (w : World) :
  searchesInFlight (greetingEffect w) = searchesInFlight w.
Proof.
  unfold searchesInFlight, greetingEffect. simpl.
  rewrite List.filter_app. apply app_nil_r.
Qed.

Lemma searches_delete_hello (l : list Request) (i : nat) (a : string) :
  l !! i = Some (GetHello a) ->
  List.filter is_search (delete i l) = List.filter is_search l.
Proof.
  revert i; induction l as [|x l IH]; intros [|i]; simpl; try discriminate.
  - now intros [= ->].
  - intros H. change (delete (S i) (x :: l)) with (x :: delete i l). simpl.
    now rewrite (IH i H).
Qed.

(** ** Overlapping and repeated searches *)

(** X6. While a search is loading the Search button is not offered, but
    the Enter key still starts one: when the text in the input can be
    encoded, a second request goes out for it; when it cannot (an
    unpaired surrogate), nothing is sent. Either way [loading] stays
    true. Any other key changes nothing. *)
Theorem enter_key_ignores_loading (w : World) :
  loading (ui w) = true ->
  step ClickSearch w = None
  /\ (exists w',
        step (KeyDown "Enter") w = Some w'
        /\ loading (ui w') = true
        /\ (well_formed (query (ui w)) = true ->
            inflight w'
            = (inflight w ++ [GetSearch (search_address (query (ui w)))])%list)
        /\ (well_formed (query (ui w)) = false -> inflight w' = inflight w))
  /\ (forall key, key <> "Enter" -> step (KeyDown key) w = Some w).
Proof.
  intros Hl. split; [simpl; now rewrite Hl |]. split.
  - exists (manualSearch w). split; [reflexivity |]. split; [reflexivity |].
    unfold manualSearch. split; intros Hq.
    + now rewrite (performSearch_sends _ _ Hq).
    + now rewrite (performSearch_throws _ _ Hq).
  - intros key Hk. simpl. unfold handleKeyPress.
    destruct (String.eqb_spec key "Enter"); [contradiction | reflexivity].
Qed.

Lemma enter_key_ignores_loading_witness :
  step ClickSearch
    (handleInputChange "land" (performSearch "ocean" (mount []))) = None
  /\ step (KeyDown "Enter")
       (handleInputChange "land" (performSearch "ocean" (mount [])))
     = Some (manualSearch
               (handleInputChange "land" (performSearch "ocean" (mount []))))
  /\ inflight (manualSearch
                 (handleInputChange "land" (performSearch "ocean" (mount []))))
     = [GetSearch (search_address "ocean"); GetSearch (search_address "land")].
Proof.
  destruct (enter_key_ignores_loading
              (handleInputChange "land" (performSearch "ocean" (mount [])))
              eq_refl) as (Hclick & (w' & Hkey & _ & Hsent & _) & _).
  split; [exact Hclick |]. split; [reflexivity |].
  injection Hkey as <-. exact (Hsent eq_refl).
Defined.

(** X7. Requests are not fenced. When a second search is started before
    the first has settled (both for queries that can be encoded, so that
    both requests went out), the first to settle hides the spinner and
    re-enables the Search button although the second is still in
    flight. *)
Theorem first_answer_hides_the_spinner (w : World) (q1 q2 : string)
    (outcome : Settled (list Talk)) (rnd : RandomSort.Random) :
  well_formed q1 = true -> well_formed q2 = true ->
  exists w3,
    step (SearchSettles (length (inflight w)) outcome rnd)
         (performSearch q2 (performSearch q1 w)) = Some w3
    /\ loading (ui w3) = false
    /\ inflight w3 = (inflight w ++ [GetSearch (search_address q2)])%list
    /\ is_Some (step ClickSearch w3).
Proof.
  intros H1 H2.
  rewrite (performSearch_sends q1 w H1), (performSearch_sends q2 _ H2).
  cbn [step inflight ui].
  rewrite <- app_assoc, lookup_app_r, Nat.sub_diag by lia. cbn [lookup list_lookup app].
  eexists. split; [reflexivity |]. cbn [ui inflight].
  split; [apply settleSearch_loading |]. split.
  - apply (delete_middle (inflight w)).
  - cbn [step ui]. rewrite settleSearch_loading. eauto.
Qed.

Lemma first_answer_hides_the_spinner_witness :
  exists w3,
    step (SearchSettles 0 (Rejected "Network Error") (fun _ => 0%Q))
         (performSearch "land" (performSearch "ocean" (mount []))) = Some w3
    /\ loading (ui w3) = false
    /\ inflight w3 = [GetSearch (search_address "land")].
Proof.
  destruct (first_answer_hides_the_spinner (mount []) "ocean" "land"
              (Rejected "Network Error") (fun _ => 0%Q) eq_refl eq_refl)
    as (w3 & Hstep & Hl & Hin & _).
  exists w3. split; [exact Hstep |]. split; [exact Hl | exact Hin].
Defined.

(** X8. The diagnostics outlive the error. After a search has failed, a
    new search clears the error message at once, and when it succeeds the
    message stays cleared, but the diagnostics panel still holds the text
    of the old failure. *)
Theorem diagnostics_outlive_the_error (st : State) (reqs : list Request)
    (outcome : Settled (list Talk)) (rnd1 rnd2 : RandomSort.Random)
    (searchQuery : string) (r : AxiosResponse (list Talk)) :
  search_failed outcome -> status r = 200 ->
  let failed := settleSearch outcome rnd1 st in
  let retried := ui (performSearch searchQuery (mkWorld failed reqs)) in
  let answered := settleSearch (Fulfilled r) rnd2 retried in
  error failed = Some failure_text
  /\ error retried = None
  /\ error answered = None
  /\ errorDetails answered = underlying_error outcome.
Proof.
  intros Hfail H200 failed retried answered.
  subst answered. rewrite (settleSearch_ok r rnd2 retried H200).
  subst retried failed.
  destruct outcome as [r1 | m]; cbn [search_failed] in Hfail.
  - rewrite (settleSearch_other_status r1 rnd1 st Hfail).
    destruct (RandomSort.sort rnd2 (data r)); repeat split.
  - rewrite settleSearch_rejected.
    destruct (RandomSort.sort rnd2 (data r)); repeat split.
Qed.

Lemma diagnostics_outlive_the_error_witness :
  errorDetails
    (settleSearch (Fulfilled (mkResponse 200 "OK" [demoTalk])) (fun _ => 0%Q)
       (ui (performSearch "ocean"
              (mkWorld (settleSearch (Rejected "Network Error") (fun _ => 0%Q)
                          (ui (mount []))) []))))
  = "Network Error".
Proof.
  apply (diagnostics_outlive_the_error (ui (mount [])) [] (Rejected "Network Error")
           (fun _ => 0%Q) (fun _ => 0%Q) "ocean"
           (mkResponse 200 "OK" [demoTalk]) I eq_refl).
Defined.

(** X9. An answer does not clear the error. When searches overlap and
    one fails before the other is answered with status 200, the fixed
    error message stays on screen beside the new results. *)
Theorem error_stays_beside_new_results (st : State)
    (outcome : Settled (list Talk)) (rnd1 rnd2 : RandomSort.Random)
    (r : AxiosResponse (list Talk)) :
  search_failed outcome -> status r = 200 ->
  let st' := settleSearch (Fulfilled r) rnd2 (settleSearch outcome rnd1 st) in
  error st' = Some failure_text
  /\ talks st' ≡ₚ data r
  /\ errorDetails st' = underlying_error outcome.
Proof.
  intros Hfail H200 st'. subst st'.
  rewrite (settleSearch_ok r rnd2 _ H200).
  pose proof (sort_perm rnd2 (data r)) as Hperm.
  destruct outcome as [r1 | m]; cbn [search_failed] in Hfail.
  - rewrite (settleSearch_other_status r1 rnd1 st Hfail).
    destruct (RandomSort.sort rnd2 (data r)); repeat split; exact Hperm.
  - rewrite settleSearch_rejected.
    destruct (RandomSort.sort rnd2 (data r)); repeat split; exact Hperm.
Qed.

Lemma error_stays_beside_new_results_witness :
  let st' := settleSearch (Fulfilled (mkResponse 200 "OK" [demoTalk]))
               (fun _ => 0%Q)
               (settleSearch (Rejected "timeout") (fun _ => 0%Q) (ui (mount []))) in
  error st' = Some failure_text /\ talks st' ≡ₚ [demoTalk].
Proof.
  destruct (error_stays_beside_new_results (ui (mount [])) (Rejected "timeout")
              (fun _ => 0%Q) (fun _ => 0%Q) (mkResponse 200 "OK" [demoTalk])
              I eq_refl) as (He & Ht & _).
  split; [exact He | exact Ht].
Defined.

(** X10. A search that fails leaves the selection alone: the selected
    talk, and with it the address in the player frame, the text in the
    input and the greeting are what they were. *)
Theorem failed_search_keeps_selection (outcome : Settled (list Talk))
    (rnd : RandomSort.Random) (st : State) :
  search_failed outcome ->
  let st' := settleSearch outcome rnd st in
  selectedTalk st' = selectedTalk st
  /\ frameSrc st' = frameSrc st
  /\ query st' = query st
  /\ greeting st' = greeting st.
Proof.
  intros Hfail st'. subst st'.
  destruct outcome as [r | m]; cbn [search_failed] in Hfail.
  - rewrite (settleSearch_other_status r rnd st Hfail). repeat split.
  - rewrite settleSearch_rejected. repeat split.
Qed.

Lemma failed_search_keeps_selection_witness :
  selectedTalk
    (settleSearch (Rejected "Network Error") (fun _ => 0%Q)
       (setSelectedTalk (Some demoTalk) (setTalks [demoTalk] (ui (mount [])))))
  = Some demoTalk.
Proof.
  apply (failed_search_keeps_selection (Rejected "Network Error") (fun _ => 0%Q)
           (setSelectedTalk (Some demoTalk) (setTalks [demoTalk] (ui (mount []))))
           I).
Defined.

(** ** Invariants of the event loop *)

Lemma settleSearch_logs (outcome : Settled (list Talk))
    (rnd : RandomSort.Random) (st : State) :
  logs st `prefix_of` logs (settleSearch outcome rnd st).
Proof.
  settle_cases outcome rnd st; cbn.
  - now exists [retrieved_entry 0].
  - eexists [_; _]. now rewrite <- app_assoc.
  - eexists [_; _]. now rewrite <- app_assoc.
  - now eexists [_].
Qed.

Lemma step_logs (e : Event) (w w' : World) :
  step e w = Some w' -> logs (ui w) `prefix_of` logs (ui w').
Proof.
  assert (Hrefl : logs (ui w) `prefix_of` logs (ui w)) by reflexivity.
  destruct e; cbn [step].
  - unfold initialKeywordEffect.
    destruct (String.eqb (initialKeyword (ui (greetingEffect w))) "").
    + destruct (determineInitialKeyword randomNumber); [| discriminate].
      now intros [= <-].
    + now intros [= <-].
  - now intros [= <-].
  - now intros [= <-].
  - unfold handleKeyPress. intros [= <-].
    destruct (String.eqb key "Enter"); [now eexists [_] | exact Hrefl].
  - destruct (loading (ui w)); [discriminate |]. intros [= <-]. now eexists [_].
  - unfold openTranscriptInNewTab.
    destruct (selectedTalk (ui w)); [| discriminate].
    intros [= <-]. now eexists [_].
  - unfold clickResult. destruct (talks (ui w) !! index); [| discriminate].
    now intros [= <-].
  - destruct (inflight w !! i) as [[|]|]; try discriminate.
    intros [= <-]. apply settleSearch_logs.
  - destruct (inflight w !! i) as [[|]|]; try discriminate.
    intros [= <-]. apply (settleGreeting_frame outcome (ui w)).
Qed.

(** X11. The log is append-only: whatever happens on the page, the
    entries that were in the log stay, in their order, at its front. *)
Theorem log_is_append_only (es : list Event) (w w' : World) :
  run es w = Some w' -> logs (ui w) `prefix_of` logs (ui w').
Proof.
  revert w; induction es as [|e es IH]; intros w; simpl.
  - now intros [= <-].
  - destruct (step e w) as [w1|] eqn:E; [| discriminate].
    intros Hrun. etransitivity; [exact (step_logs e w w1 E) | exact (IH w1 Hrun)].
Qed.

Lemma log_is_append_only_witness :
  exists w',
    run [SearchSettles 0 (Fulfilled (mkResponse 204 "No Content" []))
           (fun _ => 0%Q);
         InputChange "land"; KeyDown "Enter"]
        (manualSearch (handleInputChange "ocean" (mount []))) = Some w'
    /\ ["Manual search initiated with keyword: ocean"] `prefix_of` logs (ui w')
    /\ length (logs (ui w')) = 4.
Proof.
  eexists. split; [reflexivity |]. split; [| reflexivity].
  apply (log_is_append_only
           [SearchSettles 0 (Fulfilled (mkResponse 204 "No Content" []))
              (fun _ => 0%Q);
            InputChange "land"; KeyDown "Enter"]
           (manualSearch (handleInputChange "ocean" (mount [])))).
  reflexivity.
Defined.

Lemma step_spinner (e : Event) (w w' : World) :
  types_well_formed e = true ->
  step e w = Some w' -> spinner_invariant w -> spinner_invariant w'.
Proof.
  assert (Hstart : forall q w0, well_formed q = true ->
            searchesInFlight (performSearch q w0) <> []).
  { intros q w0 Hq. rewrite (searches_performSearch q w0 Hq).
    destruct (searchesInFlight w0); discriminate. }
  unfold spinner_invariant, spinner_has_request.
  intros He Hstep [Hspin Hquery]. revert Hstep. destruct e; cbn [step].
  - unfold initialKeywordEffect.
    destruct (String.eqb (initialKeyword (ui (greetingEffect w))) "").
    + destruct (determineInitialKeyword randomNumber) as [keyword|] eqn:K;
        [| discriminate].
      pose proof (keywords_well_formed randomNumber keyword K) as Hk.
      intros [= <-]. split; [intros _; now apply Hstart | exact Hk].
    + intros [= <-]. rewrite searches_greetingEffect. now split.
  - intros [= <-]. now split.
  - intros [= <-]. split; [exact Hspin | exact He].
  - unfold handleKeyPress. intros [= <-].
    destruct (String.eqb key "Enter"); [| now split].
    split; [intros _; now apply Hstart | exact Hquery].
  - destruct (loading (ui w)); [discriminate |].
    intros [= <-]. split; [intros _; now apply Hstart | exact Hquery].
  - destruct (selectedTalk (ui w)) eqn:E; [| discriminate].
    intros [= <-]. unfold openTranscriptInNewTab. rewrite E. now split.
  - unfold clickResult. destruct (talks (ui w) !! index); [| discriminate].
    intros [= <-]. now split.
  - destruct (inflight w !! i) as [[|]|]; try discriminate.
    intros [= <-]. cbn [ui]. rewrite settleSearch_loading, settleSearch_query.
    split; [discriminate | exact Hquery].
  - destruct (inflight w !! i) as [[a|]|] eqn:E; try discriminate.
    intros [= <-]. cbn [ui].
    destruct (settleGreeting_frame outcome (ui w))
      as (_ & _ & -> & _ & -> & _).
    unfold searchesInFlight. cbn [inflight].
    rewrite (searches_delete_hello (inflight w) i a E). now split.
Qed.

(** X12. The spinner does not turn without a request, as long as every
    text typed into the input can be encoded (has no unpaired surrogate):
    in every state the mounted panel then reaches, when [loading] is true
    a search request is in flight, whose settling will reset it. *)
Theorem spinner_means_search_in_flight (contextTalks : list Talk)
    (es : list Event) (w : World) :
  forallb types_well_formed es = true ->
  run es (mount contextTalks) = Some w ->
  loading (ui w) = true ->
  searchesInFlight w <> [].
Proof.
  assert (Hinv : forall es w0 w1, forallb types_well_formed es = true ->
            run es w0 = Some w1 ->
            spinner_invariant w0 -> spinner_invariant w1).
  { clear. induction es as [|e es IH]; intros w0 w1 Hes; simpl.
    - now intros [= <-].
    - simpl in Hes. apply andb_true_iff in Hes as [He Hes].
      destruct (step e w0) as [w'|] eqn:E; [| discriminate].
      intros Hrun H0. apply (IH w' w1 Hes Hrun).
      exact (step_spinner e w0 w' He E H0). }
  intros Hes Hrun. apply (Hinv es _ w Hes Hrun).
  split; [intros H; discriminate H | reflexivity].
Qed.

Lemma spinner_means_search_in_flight_witness :
  exists w, run [RunEffects 0; InputChange "land"; KeyDown "Enter"] (mount [])
            = Some w
            /\ searchesInFlight w <> [].
Proof.
  eexists. split; [reflexivity |].
  apply (spinner_means_search_in_flight []
           [RunEffects 0; InputChange "land"; KeyDown "Enter"]);
    reflexivity.
Defined.

Lemma settleSearch_error (outcome : Settled (list Talk))
    (rnd : RandomSort.Random) (st : State) :
  error_is_fixed st -> error_is_fixed (settleSearch outcome rnd st).
Proof.
  intros H. unfold error_is_fixed.
  settle_cases outcome rnd st; cbn; first [exact H | now right].
Qed.

Lemma step_error (e : Event) (w w' : World) :
  step e w = Some w' -> error_is_fixed (ui w) -> error_is_fixed (ui w').
Proof.
  destruct e; cbn [step].
  - unfold initialKeywordEffect.
    destruct (String.eqb (initialKeyword (ui (greetingEffect w))) "").
    + destruct (determineInitialKeyword randomNumber); [| discriminate].
      intros [= <-] _. now left.
    + now intros [= <-].
  - now intros [= <-].
  - now intros [= <-].
  - unfold handleKeyPress. intros [= <-].
    destruct (String.eqb key "Enter"); [intros _; now left | trivial].
  - destruct (loading (ui w)); [discriminate |]. intros [= <-] _. now left.
  - destruct (selectedTalk (ui w)) eqn:E; [| discriminate].
    intros [= <-]. unfold openTranscriptInNewTab. now rewrite E.
  - unfold clickResult. destruct (talks (ui w) !! index); [| discriminate].
    now intros [= <-].
  - destruct (inflight w !! i) as [[|]|]; try discriminate.
    intros [= <-]. apply settleSearch_error.
  - destruct (inflight w !! i) as [[|]|]; try discriminate.
    intros [= <-]. unfold error_is_fixed. cbn [ui].
    now destruct (settleGreeting_frame outcome (ui w)) as (_ & _ & _ & -> & _).
Qed.

(** X13. The error paragraph never shows the raw error: in every state
    the mounted panel reaches, [error] is empty or the fixed message; the
    text of what went wrong only goes to the diagnostics and the log. *)
Theorem error_is_never_raw (contextTalks : list Talk)
    (es : list Event) (w : World) :
  run es (mount contextTalks) = Some w ->
  error (ui w) = None \/ error (ui w) = Some failure_text.
Proof.
  assert (Hinv : forall es w0 w1, run es w0 = Some w1 ->
            error_is_fixed (ui w0) -> error_is_fixed (ui w1)).
  { clear. induction es as [|e es IH]; intros w0 w1; simpl.
    - now intros [= <-].
    - destruct (step e w0) as [w'|] eqn:E; [| discriminate].
      intros Hrun H0. apply (IH w' w1 Hrun). exact (step_error e w0 w' E H0). }
  intros Hrun. apply (Hinv es _ w Hrun). now left.
Qed.

Lemma error_is_never_raw_witness :
  exists w, run demoEvents (mount []) = Some w
            /\ (error (ui w) = None \/ error (ui w) = Some failure_text).
Proof.
  eexists. split; [reflexivity |].
  apply (error_is_never_raw [] demoEvents). reflexivity.
Defined.

(** ** The tag line *)

Lemma mapM_unknown (tags : list string) :
  Forall unknown_tag tags ->
  mapM (fun tag => element_text (sdgTitleMap_get tag)) tags
  = Some (replicate (length tags) "").
Proof.
  induction 1 as [|tag tags Htag _ IH]; [reflexivity |].
  cbn. unfold unknown_tag in Htag. rewrite Htag. cbn. now rewrite IH.
Qed.

Lemma join_empty_texts (n : nat) :
  join ", " (replicate (S n) "") = separators n.
Proof.
  induction n as [|n IH]; [reflexivity |].
  change (replicate (S (S n)) "") with ("" :: replicate (S n) "").
  cbn [join]. change (replicate (S n) "") with ("" :: replicate n "") at 1.
  cbv iota. rewrite IH. reflexivity.
Qed.

(** X14. A tag that [sdgTitleMap] does not know leaves an empty slot but
    keeps its separator: a result with [n + 1] tags, none of them known,
    shows a line of [n] separators and no title. *)
Theorem unknown_tags_leave_separators (talk : Talk) (tag : string)
    (tags : list string) :
  sdg_tags talk = tag :: tags ->
  Forall unknown_tag (tag :: tags) ->
  tagLine talk = Some (separators (length tags)).
Proof.
  intros Htags Hunknown. unfold tagLine. rewrite Htags.
  rewrite (mapM_unknown (tag :: tags) Hunknown).
  now rewrite <- join_empty_texts.
Qed.

Lemma unknown_tags_leave_separators_witness :
  tagLine (mkTalk "A talk" "https://www.ted.com/talks/a_talk"
             ["sdg18"; "SDG1"; "climate"])
  = Some ", , ".
Proof.
  apply (unknown_tags_leave_separators
           (mkTalk "A talk" "https://www.ted.com/talks/a_talk"
              ["sdg18"; "SDG1"; "climate"]) "sdg18" ["SDG1"; "climate"]).
  - reflexivity.
  - repeat constructor.
Defined.

(** ** The greeting effect has no guard *)

Lemma render_pass_greetings (es : list Event) (w : World) :
  forallb is_render es = true -> keyword_chosen w ->
  exists w', run es w = Some w'
             /\ length (greetingsInFlight w')
                = length (greetingsInFlight w) + effect_runs es.
Proof.
  revert w; induction es as [|e es IH]; intros w Hes Hw.
  - exists w. split; [reflexivity |]. unfold effect_runs. simpl. lia.
  - simpl in Hes. apply andb_true_iff in Hes as [He Hes].
    destruct e; try discriminate He; cbn [run step].
    + rewrite initialKeywordEffect_idle by exact Hw.
      destruct (IH (greetingEffect w) Hes Hw) as (w' & Hrun & Hlen).
      exists w'. split; [exact Hrun |]. rewrite Hlen.
      unfold greetingsInFlight, greetingEffect, effect_runs. cbn [inflight].
      rewrite List.filter_app, length_app. simpl. lia.
    + destruct (IH w Hes Hw) as (w' & Hrun & Hlen).
      exists w'. split; [exact Hrun |]. rewrite Hlen. reflexivity.
Qed.

(** X15. Unlike the initial search, the greeting request is repeated:
    after the first run of the effects one greeting request is in flight,
    and in a sequence of re-renders and repeated effect runs every
    further run sends the greeting request once more. *)
Theorem greeting_is_fetched_on_every_run (contextTalks : list Talk)
    (randomNumber : nat) (es : list Event) :
  randomNumber < 18 -> forallb is_render es = true ->
  exists w1 w',
    step (RunEffects randomNumber) (mount contextTalks) = Some w1
    /\ run es w1 = Some w'
    /\ length (greetingsInFlight w1) = 1
    /\ length (greetingsInFlight w') = 1 + effect_runs es
    /\ length (searchesInFlight w') = 1.
Proof.
  intros Hd Hes.
  destruct (determineInitialKeyword_in_range randomNumber Hd) as [keyword K].
  assert (Hstep : step (RunEffects randomNumber) (mount contextTalks)
                  = Some (performSearch keyword
                            (mkWorld
                               (setQuery keyword
                                  (setInitialKeyword keyword
                                     (ui (mount contextTalks))))
                               [GetHello hello_address])))
    by (cbn; unfold initialKeywordEffect; cbn; now rewrite K).
  rewrite (performSearch_sends keyword _
             (keywords_well_formed randomNumber keyword K)) in Hstep.
  pose proof (initialKeywordEffect_chosen randomNumber _ _ Hstep) as Hk.
  destruct (render_pass_greetings es _ Hes Hk) as (w' & Hrun & Hlen).
  destruct (render_pass_idle es _ Hes Hk) as (w'' & Hrun' & _ & Hs).
  rewrite Hrun in Hrun'. injection Hrun' as <-.
  eexists. exists w'. split; [exact Hstep |]. split; [exact Hrun |].
  split; [reflexivity |]. split; [exact Hlen |]. now rewrite Hs.
Qed.

Lemma greeting_is_fetched_on_every_run_witness :
  exists w1 w',
    step (RunEffects 3) (mount []) = Some w1
    /\ run [Rerender; RunEffects 7; RunEffects 3] w1 = Some w'
    /\ length (greetingsInFlight w') = 3
    /\ length (searchesInFlight w') = 1.
Proof.
  destruct (greeting_is_fetched_on_every_run [] 3 [Rerender; RunEffects 7; RunEffects 3]
              ltac:(lia) eq_refl) as (w1 & w' & H1 & H2 & _ & H3 & H4).
  exists w1, w'. repeat split; assumption.
Defined.
